(** * The RPC layer of the ZenFS port backend

    A shallow embedding of [request], [handleResponse], [attach] and
    [detach] together with the helpers they use ([isMessage],
    [isFileData], the [executors] table), and the properties of the
    correlation engine that follow from the code.

    The code is TypeScript running on a single-threaded event loop.  The
    embedding passes the state explicitly: the module-level [executors]
    map, the promises created by [request], the timers armed with
    [setTimeout] and the messages handed to [postMessage] form a [World];
    every entry point is a function on worlds.  What the platform decides
    (the digits produced by [Math.random], the text of a captured stack
    trace, the moment a timer fires, the order of deliveries) is an input
    of the function or an event of a run.

    The development also covers two neighbours of that layer: the
    [metadata] of the mixin [Readonly], and functions of the callback
    interface ([rename], [exists], [truncate], [ftruncate], [write],
    [openAsBlob]), modelled by the operations they ask for and the calls
    of callbacks they make, given how the promises they wait for end. *)

From stdpp Require Import gmap strings list fin_maps pretty.

Set Warnings "-register-all".

(** ** The fragment of JavaScript the code relies on *)

Module JS.

(** Numbers are restricted to the integers and [NaN]: descriptors, cursor
    positions and timeouts are integral, and [NaN] is what arithmetic on
    [undefined] produces. *)
Inductive number :=
| NaN
| Int (z : Z).

(** Values that travel over a message channel (structured clone of plain
    data): primitives and plain objects, an object being the finite map of
    its own properties.  Functions cannot be cloned, hence no property of
    a received object is callable. *)
Inductive value :=
| VUndefined
| VNull
| VBool (b : bool)
| VNum (n : number)
| VStr (s : string)
| VObj (props : gmap string value).

(** The errors of the file-system core that the layer constructs. *)
Inductive ErrorCode :=
| EPERM
| ENOENT
| EIO
| EROFS.

(** Modelled from the spec: the class [ApiError] is imported from the
    file-system core and is not part of the sources at hand; the layer
    uses the constructor [new ApiError(code, message)] and the [stack]
    field, an error being an I/O-class failure when its code is [EIO]. *)
Record ApiError := mkApiError {
  errno : ErrorCode;
  message : string;
  stack : string;
}.

(** Opaque identity of the file-system stub ([PortFS]) that issued a call. *)
Abbreviation PortFS := nat (only parsing).

(** Modelled from the spec: the class [PortFile] lives in [./fs.js], which
    is not part of the sources at hand; the proxy holds the owning stub
    and the three fields of the descriptor it was built from, in the
    order of the constructor call [new PortFile(fs, fd, path, position)]. *)
Record PortFile := mkPortFile {
  file_fs : option PortFS;
  file_fd : value;
  file_path : value;
  file_position : value;
}.

(** Whatever can be thrown, or handed to [resolve] and [reject]: data
    received from the channel or an object built on this side. *)
Inductive payload :=
| Data (v : value)
| Proxy (f : PortFile)
| Failure (e : ApiError)
| TypeError.

(** Result of evaluating a piece of code: it returns or it throws. *)
Inductive completion (A : Type) :=
| Normal (a : A)
| Throw (x : payload).
Arguments Normal {A} a.
Arguments Throw {A} x.

#[global] Instance completion_ret : MRet completion := @Normal.

#[global] Instance completion_bind : MBind completion := λ A B k c,
  match c with
  | Normal a => k a
  | Throw x => Throw x
  end.

(** [typeof v] *)
Definition typeof (v : value) : string :=
  match v with
  | VUndefined => "undefined"
  | VNull => "object"
  | VBool _ => "boolean"
  | VNum _ => "number"
  | VStr _ => "string"
  | VObj _ => "object"
  end.

(** [k in v]: a [TypeError] unless the right operand is an object.  The
    names the code looks for are not defined on [Object.prototype], so
    the search of the prototype chain comes down to the own properties. *)
Definition has_property (k : string) (v : value) : completion bool :=
  match v with
  | VObj props => Normal (bool_decide (is_Some (props !! k)))
  | _ => Throw TypeError
  end.

(** [v.k], for the names the code reads (none of them is defined on a
    built-in prototype): [undefined] when absent, a [TypeError] on
    [undefined] and [null]. *)
Definition get (k : string) (v : value) : completion value :=
  match v with
  | VObj props => Normal (default VUndefined (props !! k))
  | VUndefined | VNull => Throw TypeError
  | _ => Normal VUndefined
  end.

(** [v.k = x] in strict mode (the code is an ES module): only objects
    accept the assignment. *)
Definition set (k : string) (x : value) (v : value) : completion value :=
  match v with
  | VObj props => Normal (VObj (<[k := x]> props))
  | _ => Throw TypeError
  end.

(** [!!v] *)
Definition truthy (v : value) : bool :=
  match v with
  | VUndefined | VNull => false
  | VBool b => b
  | VNum NaN => false
  | VNum (Int z) => bool_decide (z ≠ 0%Z)
  | VStr s => bool_decide (s ≠ "")
  | VObj _ => true
  end.

(** [ToPrimitive]: a plain object answers through [Object.prototype.toString]
    unless an own, necessarily non-callable, [toString] property shadows
    it, in which case the conversion fails. *)
Definition to_primitive (v : value) : completion value :=
  match v with
  | VObj props =>
      if bool_decide (is_Some (props !! "toString")) then Throw TypeError
      else Normal (VStr "[object Object]")
  | _ => Normal v
  end.

(** [ToString] of a primitive, and [ToNumber] of a primitive that is not
    a string (the only ones [add] converts to a number). *)
Definition to_string (v : value) : string :=
  match v with
  | VUndefined => "undefined"
  | VNull => "null"
  | VBool true => "true"
  | VBool false => "false"
  | VNum NaN => "NaN"
  | VNum (Int z) => pretty z
  | VStr s => s
  | VObj _ => "[object Object]"
  end.

Definition to_number (v : value) : number :=
  match v with
  | VNull => Int 0
  | VBool true => Int 1
  | VBool false => Int 0
  | VNum n => n
  | _ => NaN
  end.

Definition plus (a b : number) : number :=
  match a, b with
  | Int x, Int y => Int (x + y)
  | _, _ => NaN
  end.

Definition is_string (v : value) : bool :=
  match v with
  | VStr _ => true
  | _ => false
  end.

(** [a + b]: concatenation as soon as one operand is a string once both
    are primitives, addition of numbers otherwise. *)
Definition add (a b : value) : completion value :=
  pa ← to_primitive a ;
  pb ← to_primitive b ;
  Normal (if is_string pa || is_string pb
          then VStr (to_string pa +:+ to_string pb)
          else VNum (plus (to_number pa) (to_number pb))).

(** [s + b] for a string [s] *)
Definition concat (s : string) (b : value) : completion string :=
  pb ← to_primitive b ;
  Normal (s +:+ to_string pb).

(** [s.slice(start)] for a non-negative [start]: the string without its
    first [start] characters. *)
Fixpoint slice (start : nat) (s : string) : string :=
  match start, s with
  | O, _ => s
  | S n, String _ rest => slice n rest
  | S _, EmptyString => EmptyString
  end.

End JS.

Import JS.

(** ** Messages *)

(** [interface Message], [interface Response extends Message]: the
    envelope as its declaration types it. *)
Record Response := mkResponse {
  scope : string;
  id : string;
  method : string;
  stack_trail : string;   (* the field [stack] *)
  error : bool;
  value_of : value;       (* the field [value] *)
}.

(** The object a [Response] is on the wire, [_zenfs: true] included. *)
Definition wire (r : Response) : value :=
  VObj (<["_zenfs" := VBool true]>
       (<["scope" := VStr (scope r)]>
       (<["id" := VStr (id r)]>
       (<["method" := VStr (method r)]>
       (<["stack" := VStr (stack_trail r)]>
       (<["error" := VBool (error r)]>
       (<["value" := value_of r]> ∅))))))).

(** [interface FileData] as an object *)
Definition descriptor (fd path position : value) : value :=
  VObj (<["fd" := fd]> (<["path" := path]> (<["position" := position]> ∅))).

(** [function isFileData(value)]:
    [typeof value == 'object' && 'fd' in value && 'path' in value
     && 'position' in value] *)
Definition isFileData (v : value) : completion bool :=
  if bool_decide (typeof v = "object") then
    has_property "fd" v ≫= λ fd : bool,
    if fd then
      has_property "path" v ≫= λ path : bool,
      if path then has_property "position" v else Normal false
    else Normal false
  else Normal false.

(** [function isMessage(arg)]:
    [typeof arg == 'object' && '_zenfs' in arg && !!arg._zenfs] *)
Definition isMessage (arg : value) : completion bool :=
  if bool_decide (typeof arg = "object") then
    has_property "_zenfs" arg ≫= λ tag : bool,
    if tag then
      t ← get "_zenfs" arg ;
      Normal (truthy t)
    else Normal false
  else Normal false.

(** ** The state of the engine *)

(** A promise is named by its rank of creation; the functions [resolve]
    and [reject] of its executor carry that name. *)
Abbreviation PromiseRef := nat (only parsing).

Inductive PromiseState :=
| Pending
| Fulfilled (x : payload)
| Rejected (x : payload).

(** [interface Executor] *)
Record Executor := mkExecutor {
  resolve : PromiseRef;
  reject : PromiseRef;
  fs : option PortFS;
}.

(** Identity of a [Port] object, as far as [request] uses it: something
    messages are posted on. *)
Abbreviation PortRef := nat (only parsing).

(** The closure handed to [setTimeout] by [request]: the variables [id],
    [stack] and [reject] it captured, the delay it was armed with, and
    whether the event loop has run it already. *)
Record Timer := mkTimer {
  delay : Z;
  timer_id : string;
  timer_stack : string;
  timer_reject : PromiseRef;
  fired : bool;
}.

(** The state the entry points act on: the module-level table, and the
    part of the runtime they reach (promises created, timers armed,
    messages posted). *)
Record World := mkWorld {
  executors : gmap string Executor;   (* [const executors = new Map()] *)
  promises : list PromiseState;
  timers : list Timer;
  outbox : list (PortRef * value);    (* calls of [postMessage], latest last *)
}.

Definition initial : World :=
  {| executors := ∅; promises := []; timers := []; outbox := [] |}.

(** Calling the [resolve] or [reject] function of promise [p]: the first
    call settles the promise, later calls have no effect.  What the code
    passes to [resolve] is received data or a proxy, never a thenable, so
    [resolve] fulfils the promise with its argument. *)
Definition settle (p : PromiseRef) (s : PromiseState) (w : World) : World :=
  match promises w !! p with
  | Some Pending =>
      {| executors := executors w; promises := <[p := s]> (promises w);
         timers := timers w; outbox := outbox w |}
  | _ => w
  end.

(** [executors.set(id, e)] and [executors.delete(id)] *)
Definition executors_set (k : string) (e : Executor) (w : World) : World :=
  {| executors := <[k := e]> (executors w); promises := promises w;
     timers := timers w; outbox := outbox w |}.

Definition executors_delete (k : string) (w : World) : World :=
  {| executors := delete k (executors w); promises := promises w;
     timers := timers w; outbox := outbox w |}.

(** [executors.has(id)], [executors.get(id)] and [executors.delete(id)]
    for an arbitrary key: the keys of the table are strings, any other
    value misses. *)
Definition executors_get (k : value) (w : World) : option Executor :=
  match k with
  | VStr s => executors w !! s
  | _ => None
  end.

Definition executors_delete_key (k : value) (w : World) : World :=
  match k with
  | VStr s => executors_delete s w
  | _ => w
  end.

(** ** [request] *)

(** The second parameter of [request]:
    [{ port, timeout = 1000, fs }: Partial<Options> & { fs?: PortFS } = {}] *)
Record Options := mkOptions {
  port : option PortRef;
  timeout : option Z;
  opt_fs : option PortFS;
}.

Definition new_promise (w : World) : World :=
  {| executors := executors w; promises := promises w ++ [Pending];
     timers := timers w; outbox := outbox w |}.

Definition postMessage (p : PortRef) (m : value) (w : World) : World :=
  {| executors := executors w; promises := promises w;
     timers := timers w; outbox := outbox w ++ [(p, m)] |}.

Definition setTimeout (t : Timer) (w : World) : World :=
  {| executors := executors w; promises := promises w;
     timers := timers w ++ [t]; outbox := outbox w |}.

(** The identifier drawn by a call:
    [Math.random().toString(16).slice(10)], [random] being the text
    [Math.random().toString(16)]. *)
Definition request_id (random : string) : string := slice 10 random.

(** The stack kept by a call: [new Error().stack.slice('Error:'.length)],
    [trace] being the text [new Error().stack]. *)
Definition request_stack (trace : string) : string := slice (String.length "Error:") trace.

(** [function request(request, { port, timeout = 1000, fs } = {})].
    Returns the new world and the promise handed to the caller.  The body
    of the executor runs inside [new Promise]: the failure of
    [port.postMessage] on a missing port rejects the promise and skips the
    rest of the body. *)
Definition request (req : gmap string value) (opts : Options)
    (random trace : string) (w : World) : World * PromiseRef :=
  let stack := request_stack trace in
  let p := length (promises w) in
  let w := new_promise w in
  let id := request_id random in
  let w := executors_set id {| resolve := p; reject := p; fs := opt_fs opts |} w in
  match port opts with
  | None => (settle p (Rejected TypeError) w, p)
  | Some prt =>
      let w := postMessage prt
        (VObj (<["stack" := VStr stack]> (<["id" := VStr id]>
              (<["_zenfs" := VBool true]> req)))) w in
      let w := setTimeout {| delay := default 1000%Z (timeout opts);
                             timer_id := id; timer_stack := stack;
                             timer_reject := p; fired := false |} w in
      (w, p)
  end.

(** The error built by the callback armed by [request]:
    [const error = new ApiError(ErrorCode.EIO, `RPC Failed (#${id})`);
     error.stack += stack;]
    [trace] is the stack captured by [new ApiError]. *)
Definition timeout_error (id stack trace : string) : ApiError :=
  {| errno := EIO; message := "RPC Failed (#" +:+ id +:+ ")";
     JS.stack := trace +:+ stack |}.

Definition mark_fired (k : nat) (t : Timer) (w : World) : World :=
  {| executors := executors w; promises := promises w;
     timers := <[k := {| delay := delay t; timer_id := timer_id t;
                         timer_stack := timer_stack t;
                         timer_reject := timer_reject t; fired := true |}]> (timers w);
     outbox := outbox w |}.

(** The event loop runs the callback of timer [k], once:
    [() => { const error = ...; reject(error); }].  Nothing else is done:
    the timer is never cleared and the table is not touched. *)
Definition fire (k : nat) (trace : string) (w : World) : World :=
  match timers w !! k with
  | Some t =>
      if fired t then w
      else settle (timer_reject t)
             (Rejected (Failure (timeout_error (timer_id t) (timer_stack t) trace)))
             (mark_fired k t w)
  | None => w
  end.

(** ** [handleResponse] *)

(** [const { id, value, error, stack } = response] *)
Definition fields (response : value) : completion (value * value * value * value) :=
  id ← get "id" response ;
  value ← get "value" response ;
  error ← get "error" response ;
  stack ← get "stack" response ;
  Normal (id, value, error, stack).

(** [e.stack += stack] *)
Definition append_stack (e stack : value) : completion value :=
  old ← get "stack" e ;
  new ← add old stack ;
  set "stack" new e.

(** [const { fd, path, position } = value; new PortFile(fs, fd, path, position)] *)
Definition new_PortFile (owner : option PortFS) (value : value) : completion PortFile :=
  fd ← get "fd" value ;
  path ← get "path" value ;
  position ← get "position" value ;
  Normal (mkPortFile owner fd path position).

(** [function handleResponse(response)]; [trace] is the stack captured by
    [new ApiError] on the path that builds one.  The function returns
    [undefined] for what is not a message and its argument otherwise; on
    the error path the argument is returned with the [stack] of its
    [value] updated, the object being shared. *)
Definition handleResponse (response : value) (trace : string) (w : World)
    : completion value * World :=
  match isMessage response with
  | Throw x => (Throw x, w)
  | Normal false => (Normal VUndefined, w)
  | Normal true =>
      match fields response with
      | Throw x => (Throw x, w)
      | Normal (id, value, error, stack) =>
          match executors_get id w with
          | None =>
              (msg ← concat "Invalid RPC id:" id ;
               stk ← concat trace stack ;
               Throw (Failure {| errno := EIO; message := msg; JS.stack := stk |}), w)
          | Some ex =>
              if truthy error then
                match append_stack value stack with
                | Throw x => (Throw x, w)
                | Normal e =>
                    let w := settle (reject ex) (Rejected (Data e)) w in
                    let w := executors_delete_key id w in
                    (set "value" e response, w)
                end
              else
                match isFileData value with
                | Throw x => (Throw x, w)
                | Normal true =>
                    match new_PortFile (fs ex) value with
                    | Throw x => (Throw x, w)
                    | Normal file =>
                        let w := settle (resolve ex) (Fulfilled (Proxy file)) w in
                        let w := executors_delete_key id w in
                        (Normal response, w)
                    end
                | Normal false =>
                    let w := settle (resolve ex) (Fulfilled (Data value)) w in
                    let w := executors_delete_key id w in
                    (Normal response, w)
                end
          end
      end
  end.

(** ** Runs of the engine *)

(** What the event loop can make the engine do: a caller invokes
    [request], the channel listener hands a received value to
    [handleResponse] (an exception leaves through the listener), or a
    timer armed by an earlier call comes due. *)
Inductive event :=
| Call (req : gmap string value) (opts : Options) (random trace : string)
| Deliver (response : value) (trace : string)
| Expire (k : nat) (trace : string).

Definition step (w : World) (e : event) : World :=
  match e with
  | Call req opts random trace => (request req opts random trace w).1
  | Deliver response trace => (handleResponse response trace w).2
  | Expire k trace => fire k trace w
  end.

Definition run (w : World) (es : list event) : World := foldl step w es.

(** The events that decide the fate of the call with identifier [id] and
    timer [k]: the delivery of a message bearing [id], and the expiry of
    the timer. *)
Definition bears (id : string) (response : value) : Prop :=
  isMessage response = Normal true ∧ get "id" response = Normal (VStr id).

Definition answers (id : string) (e : event) : Prop :=
  match e with
  | Deliver response _ => bears id response
  | _ => False
  end.

Definition expires (k : nat) (e : event) : Prop :=
  match e with
  | Expire j _ => j = k
  | _ => False
  end.

(** Every reference held by the table or by a timer names a promise that
    exists. *)
Definition wf (w : World) : Prop :=
  map_Forall (λ _ ex, resolve ex < length (promises w)
                      ∧ reject ex < length (promises w)) (executors w)
  ∧ Forall (λ t, timer_reject t < length (promises w)) (timers w).

(** What a call is resolved with when a successful response carries [v]
    and the call recorded the stub [owner]: the proxy built from [v] when
    [v] has the three fields of a descriptor, [v] itself otherwise. *)
Definition resolution (owner : option PortFS) (v : value) : payload :=
  match v with
  | VObj props =>
      match props !! "fd", props !! "path", props !! "position" with
      | Some fd, Some path, Some position => Proxy (mkPortFile owner fd path position)
      | _, _, _ => Data v
      end
  | _ => Data v
  end.

(** ** Subscriptions: [attach] and [detach] *)

(** Identity of a function object.  Evaluating an arrow function
    expression creates a new object each time; the identity of the object
    created is an input of [attach] and [detach], and runs of the program
    supply a fresh one at every call. *)
Abbreviation FunRef := nat (only parsing).

(** The arrow function built by [attach] and [detach]:
    [(message) => handler('data' in message ? message.data : message)],
    a function object [fn] that captured [handler]. *)
Record Listener := mkListener {
  fn : FunRef;
  handler : nat;
}.

(** [interface Port], as [attach] and [detach] see it: the names of the
    members the object has, the listeners registered for ["message"]
    through [on] (removed through [off]) and those registered through
    [addEventListener] (removed through [removeEventListener]).  The
    methods behave as those of an event emitter and of an event target:
    registration appends, an event target ignoring a function it already
    holds; removal takes out a listener that is the very function object
    passed. *)
Record Port := mkPort {
  members : gset string;
  emitter : list Listener;
  event_target : list Listener;
}.

Definition on (l : Listener) (p : Port) : Port :=
  {| members := members p; emitter := emitter p ++ [l];
     event_target := event_target p |}.

Definition addEventListener (l : Listener) (p : Port) : Port :=
  {| members := members p; emitter := emitter p;
     event_target :=
       if bool_decide (fn l ∈ fn <$> event_target p) then event_target p
       else event_target p ++ [l] |}.

(** Removal of the most recently added listener that is the function [f] *)
Fixpoint remove_last (f : FunRef) (ls : list Listener) : list Listener :=
  match ls with
  | [] => []
  | l :: rest =>
      if bool_decide (f ∈ fn <$> rest) then l :: remove_last f rest
      else if bool_decide (fn l = f) then rest
      else l :: rest
  end.

Definition off (l : Listener) (p : Port) : Port :=
  {| members := members p; emitter := remove_last (fn l) (emitter p);
     event_target := event_target p |}.

Definition removeEventListener (l : Listener) (p : Port) : Port :=
  {| members := members p; emitter := emitter p;
     event_target := remove_last (fn l) (event_target p) |}.

(** [port[name]('message', l)]: a [TypeError] when the port has no member
    of that name. *)
Definition invoke (name : string) (l : Listener) (p : Port) : completion Port :=
  if bool_decide (name ∈ members p) then
    if String.eqb name "on" then Normal (on l p)
    else if String.eqb name "addEventListener" then Normal (addEventListener l p)
    else if String.eqb name "off" then Normal (off l p)
    else if String.eqb name "removeEventListener" then Normal (removeEventListener l p)
    else Normal p
  else Throw TypeError.

(** [function attach(port, handler)]:
    [port['on' in port ? 'on' : 'addEventListener']('message', (message) => ...)] *)
Definition attach (port : Port) (handler : nat) (closure : FunRef) : completion Port :=
  invoke (if bool_decide ("on" ∈ members port) then "on" else "addEventListener")
         {| fn := closure; handler := handler |} port.

(** [function detach(port, handler)]:
    [port['off' in port ? 'off' : 'removeEventListener']('message', (message) => ...)] *)
Definition detach (port : Port) (handler : nat) (closure : FunRef) : completion Port :=
  invoke (if bool_decide ("off" ∈ members port) then "off" else "removeEventListener")
         {| fn := closure; handler := handler |} port.

(** The body of the arrow function, applied to what the port hands it:
    the call of [handler] it makes, or the exception it throws. *)
Definition listener_call (l : Listener) (message : value) : completion (nat * value) :=
  has_property "data" message ≫= λ wrapped : bool,
  if wrapped then
    data ← get "data" message ;
    Normal (handler l, data)
  else Normal (handler l, message).

(** The event object an event target passes to its listeners. *)
Definition MessageEvent (data : value) : value :=
  VObj (<["type" := VStr "message"]> (<["data" := data]> ∅)).

(** A message arrives on the port: listeners registered through [on]
    receive the value itself, listeners registered through
    [addEventListener] a [MessageEvent] holding it.  The result lists
    what each listener does. *)
Definition dispatch (m : value) (p : Port) : list (completion (nat * value)) :=
  ((λ l, listener_call l m) <$> emitter p)
  ++ ((λ l, listener_call l (MessageEvent m)) <$> event_target p).

(** The arrow function run to its end, [h] being the function its
    [handler] is:
    [(message) => { handler('data' in message ? message.data : message); }].
    The call of the handler stands in no [try]: what the handler throws
    leaves the listener, as does what the test ['data' in message]
    throws.  The body is a block, so what the handler returns is dropped
    and the listener returns [undefined]. *)
Definition listener_run (l : Listener) (h : value → World → completion value * World)
    (message : value) (w : World) : completion value * World :=
  match listener_call l message with
  | Throw x => (Throw x, w)
  | Normal (_, m) => ((h m w).1 ≫= λ _ : value, Normal VUndefined, (h m w).2)
  end.

(** What the function objects a run has handed out look like to a port:
    all registered listeners are among the first [next] objects. *)
Definition allocated (next : FunRef) (p : Port) : Prop :=
  Forall (λ l, fn l < next) (emitter p) ∧ Forall (λ l, fn l < next) (event_target p).

(** ** Notions used by the statements *)

(** The timer armed by a call whose promise is [p]. *)
Definition armed (opts : Options) (random trace : string) (p : PromiseRef) : Timer :=
  {| delay := default 1000%Z (timeout opts); timer_id := request_id random;
     timer_stack := request_stack trace; timer_reject := p; fired := false |}.

(** The call that owns promise [p] is still waiting: the promise is
    pending and can be reached only through the record of [id] and
    through timer [k], which is [t]. *)
Definition waiting (p : PromiseRef) (id : string) (k : nat) (t : Timer) (w : World) : Prop :=
  promises w !! p = Some Pending
  ∧ timers w !! k = Some t
  ∧ map_Forall (λ key ex, resolve ex = p ∨ reject ex = p → key = id) (executors w)
  ∧ (∀ j t', timers w !! j = Some t' → timer_reject t' = p → j = k).

(** Whether a value carries the tag of the protocol: an object with a
    truthy [_zenfs]. *)
Definition tagged (v : value) : bool :=
  match v with
  | VObj props =>
      match props !! "_zenfs" with
      | Some t => truthy t
      | None => false
      end
  | _ => false
  end.

(** A call together with the response that answers it, and the stack
    trace the handler would capture while it is processed. *)
Record Exchange := mkExchange {
  x_req : gmap string value;
  x_opts : Options;
  x_random : string;
  x_trace : string;
  x_response : Response;
  x_handler_trace : string;
}.

Definition call_of (x : Exchange) : event :=
  Call (x_req x) (x_opts x) (x_random x) (x_trace x).

Definition answer_of (x : Exchange) : event :=
  Deliver (wire (x_response x)) (x_handler_trace x).

Definition x_id (x : Exchange) : string := request_id (x_random x).

(** The call goes out on a port, and its response is a successful one
    that bears the identifier of the call and carries a value other than
    [null]. *)
Definition answered (x : Exchange) : Prop :=
  is_Some (port (x_opts x))
  ∧ id (x_response x) = x_id x
  ∧ error (x_response x) = false
  ∧ value_of (x_response x) ≠ VNull.

(** The record of the call of [xp.1] is in the table and names promise
    [xp.2], which is pending. *)
Definition registered (w : World) (xp : Exchange * PromiseRef) : Prop :=
  executors w !! x_id xp.1
    = Some {| resolve := xp.2; reject := xp.2; fs := opt_fs (x_opts xp.1) |}
  ∧ promises w !! xp.2 = Some Pending.

(** ** Sample inputs *)

Definition sample_options : Options :=
  {| port := Some 0; timeout := None; opt_fs := Some 4 |}.

Definition sample_call : event :=
  Call ∅ sample_options "0.123456789abcd" "Error: at caller".

Definition sample_response (id : string) (v : value) : Response :=
  {| scope := "fs"; id := id; method := "stat"; stack_trail := " at remote";
     error := false; value_of := v |}.

Definition sample_exchange (random : string) (v : value) : Exchange :=
  {| x_req := ∅; x_opts := sample_options; x_random := random;
     x_trace := "Error: at caller";
     x_response := sample_response (request_id random) v;
     x_handler_trace := "trace" |}.

Definition sample_exchanges : list Exchange :=
  [sample_exchange "0.123456789abcd" (VStr "first");
   sample_exchange "0.fedcba9876543"
     (descriptor (VNum (Int 3)) (VStr "/a.txt") (VNum (Int 0)));
   sample_exchange "0.0f0f0f0f0f0f1" (VNum (Int 42))].

(** Two calls, the first of which is answered with [null]. *)
Definition null_exchanges : list Exchange :=
  [sample_exchange "0.123456789abcd" VNull;
   sample_exchange "0.fedcba9876543" (VNum (Int 42))].

(** A port in the style of an event emitter, one in the style of an event
    target, and one that only has a handler slot. *)
Definition emitter_port : Port :=
  {| members := {["postMessage"; "on"; "off"]}; emitter := []; event_target := [] |}.

Definition target_port : Port :=
  {| members := {["postMessage"; "addEventListener"; "removeEventListener"; "onmessage"]};
     emitter := []; event_target := [] |}.

Definition slot_port : Port :=
  {| members := {["postMessage"; "onmessage"]}; emitter := []; event_target := [] |}.

(** ** Further notions *)

(** A later call draws the identifier [id]. *)
Definition draws (id : string) (e : event) : Prop :=
  match e with
  | Call _ _ random _ => request_id random = id
  | _ => False
  end.

(** The listener hands a value to [handleResponse]. *)
Definition delivers (e : event) : Prop :=
  match e with
  | Deliver _ _ => True
  | _ => False
  end.

(** The call goes out on a port, and its response bears the identifier
    of the call; the response may report success or failure and carry
    any value. *)
Definition addressed (x : Exchange) : Prop :=
  is_Some (port (x_opts x)) ∧ id (x_response x) = x_id x.

(** A response as [handleResponse] expects it for a failed operation:
    the value is an object, the serialized error, whose [stack] is a
    string. *)
Definition carries_error (r : Response) (props : gmap string value) (s : string) : Prop :=
  error r = true ∧ value_of r = VObj props ∧ props !! "stack" = Some (VStr s).

(** The error handed to the caller for such a response: the object
    received, its [stack] followed by the [stack] of the envelope. *)
Definition remote_error (r : Response) (props : gmap string value) (s : string) : value :=
  VObj (<["stack" := VStr (s +:+ stack_trail r)]> props).

(** ** The mixin [Readonly] *)

Module ReadonlyFS.

(** [metadata()] of the class the mixin builds:
    [return { ...super.metadata(), readonly: true }], [base] being the
    object [super.metadata()] returns. *)
Definition metadata (base : gmap string value) : gmap string value :=
  <["readonly" := VBool true]> base.

End ReadonlyFS.

(** ** The callback interface *)

Module Callbacks.

(** What a promise is rejected with and what a callback throws: the
    error the interface builds itself, [new ApiError(ErrorCode.EINVAL,
    message)], or anything else. *)
Inductive reason :=
| Invalid (message : option string)
| Raised (x : payload).

(** [FileContents], and the buffer [Buffer.from(data)] makes of it. *)
Inductive contents :=
| Text (s : string)
| Binary (b : list Byte.byte).

Inductive buffer :=
| BufferFrom (data : contents).

(** What a callback is called with: a plain value ([null], a number, a
    boolean), an error, a buffer, or the text [buffer.toString(encoding)]. *)
Inductive cbarg :=
| Plain (v : value)
| Error (x : reason)
| Bytes (b : buffer)
| Decoded (b : buffer) (encoding : string).

(** How a call of a callback ends: it returns, it throws, or it returns
    a promise that is rejected. *)
Inductive outcome :=
| Returns
| Throws (x : reason)
| Rejects (x : reason).

(** A callback: a function object, named, and how calling it ends. *)
Record Callback := mkCallback {
  cb_name : nat;
  call : list cbarg → outcome;
}.

(** A call made by a handler of [then] or [catch], which returns what the
    callback returns: the promise of the handler is rejected when the
    callback throws and when it returns a rejected promise alike. *)
Definition fails (c : Callback) (args : list cbarg) : option reason :=
  match call c args with
  | Returns => None
  | Throws x | Rejects x => Some x
  end.

(** A call made as a statement, [cb(...);], outside any promise: what the
    callback throws goes to the caller; a rejected promise it returns is
    dropped and nobody handles the rejection. *)
Definition throws (c : Callback) (args : list cbarg) : option reason :=
  match call c args with
  | Throws x => Some x
  | _ => None
  end.

Definition rejects (c : Callback) (args : list cbarg) : option reason :=
  match call c args with
  | Rejects x => Some x
  | _ => None
  end.

(** Modelled from the spec: [nop] is imported from [../utils.js], which is
    not part of the sources at hand; it is the default of every callback
    parameter, a function that does nothing. *)
Definition nop : Callback := {| cb_name := 0; call := λ _, Returns |}.

(** [cb: Callback = nop] *)
Definition or_nop (cb : option Callback) : Callback := default nop cb.

(** An argument in a position that several overloads share: a value or a
    function. *)
Inductive arg :=
| Given (v : value)
| Fn (c : Callback).

Definition typeof_arg (a : arg) : string :=
  match a with
  | Given v => typeof v
  | Fn _ => "function"
  end.

(** [typeof a === 'function' ? a : cb] *)
Definition callback_or (a : arg) (cb : Callback) : Callback :=
  match a with
  | Fn c => c
  | Given _ => cb
  end.

(** The state a promise ends in. *)
Inductive settled (A : Type) :=
| Resolved (a : A)
| Failed (e : reason).
Arguments Resolved {A} a.
Arguments Failed {A} e.

(** A call of a callback: the name of the function and its arguments. *)
Definition invocation : Type := nat * list cbarg.

(** [p.then(ok).catch(err)], [ok] and [err] each calling one callback:
    the calls made, and the rejection left unhandled when the last call
    fails.  A failure of the call made by [ok] is handed to [err]. *)
Definition then_catch {A} (p : settled A) (ok : A → Callback * list cbarg)
    (err : reason → Callback * list cbarg) : list invocation * option reason :=
  match p with
  | Resolved a =>
      match fails (ok a).1 (ok a).2 with
      | None => ([(cb_name (ok a).1, (ok a).2)], None)
      | Some x =>
          ([(cb_name (ok a).1, (ok a).2); (cb_name (err x).1, (err x).2)],
           fails (err x).1 (err x).2)
      end
  | Failed e => ([(cb_name (err e).1, (err e).2)], fails (err e).1 (err e).2)
  end.

(** The handler of [then] evaluates the arguments of the call before it
    makes it: when that throws, the callback is not called and the
    promise of the handler is rejected with what was thrown, as it is
    when the promise before it was rejected with it. *)
Definition evaluating {A} (failure : option reason) (p : settled A) : settled A :=
  match p, failure with
  | Resolved _, Some x => Failed x
  | _, _ => p
  end.

(** In a position shared by a value and a callback, what is passed to
    the operation and what to the length of a write. *)
Inductive warg :=
| Arg (a : arg)
| LengthOf (b : buffer).

(** The operations the interface asks of [promises], of a file or of a
    file handle. *)
Inductive operation :=
| OpRename (oldPath newPath : value)
| OpExists (path : value)
| OpTruncate (path : value) (len : value)
| OpFileTruncate (fd : value) (len : value)
| OpHandleWrite (fd : value) (b : buffer) (offset length position : warg)
| OpOpen (path : value) (flag : string)
| OpReadFile
| OpClose.

(** What a call of the interface does: the operations it asks for, the
    callbacks it calls, the exception it throws to its caller, and the
    rejection nobody handles. *)
Record Effect := mkEffect {
  requested : list operation;
  invoked : list invocation;
  thrown : option reason;
  unhandled : option reason;
}.

(** [function rename(oldPath, newPath, cb = nop)]:
    [promises.rename(oldPath, newPath).then(() => cb()).catch(cb)];
    [p] is how the promise of [promises.rename] ends. *)
Definition rename (oldPath newPath : value) (cb : option Callback) (p : settled unit)
    : Effect :=
  let cb := or_nop cb in
  let r := then_catch p (λ _, (cb, [])) (λ e, (cb, [Error e])) in
  {| requested := [OpRename oldPath newPath]; invoked := r.1;
     thrown := None; unhandled := r.2 |}.

(** [function exists(path, cb = nop)]:
    [promises.exists(path).then(cb).catch(() => cb(false))] *)
Definition exists_ (path : value) (cb : option Callback) (p : settled bool) : Effect :=
  let cb := or_nop cb in
  let r := then_catch p (λ b, (cb, [Plain (VBool b)]))
                        (λ _, (cb, [Plain (VBool false)])) in
  {| requested := [OpExists path]; invoked := r.1; thrown := None; unhandled := r.2 |}.

(** [typeof a === 'number' ? a : 0] *)
Definition number_or_zero (a : arg) : value :=
  match a with
  | Given (VNum n) => VNum n
  | _ => VNum (Int 0)
  end.

(** [function truncate(path, cbLen = 0, cb = nop)] *)
Definition truncate (path : value) (cbLen : arg) (cb : option Callback)
    (p : settled unit) : Effect :=
  let cbLen := match cbLen with
               | Given VUndefined => Given (VNum (Int 0))
               | _ => cbLen
               end in
  let cb := callback_or cbLen (or_nop cb) in
  let len := number_or_zero cbLen in
  let r := then_catch p (λ _, (cb, [])) (λ e, (cb, [Error e])) in
  {| requested := [OpTruncate path len]; invoked := r.1;
     thrown := None; unhandled := r.2 |}.

(** [length < 0] *)
Definition negative (v : value) : bool :=
  match v with
  | VNum (Int z) => bool_decide (z < 0)%Z
  | _ => false
  end.

(** [function ftruncate(fd, lenOrCB?, cb = nop)].  [file] is what
    [fd2file(fd)] does, return the file or throw; [p] is how the promise
    of [file.truncate(length)] ends. *)
Definition ftruncate (fd : value) (lenOrCB : arg) (cb : option Callback)
    (file : option reason) (p : settled unit) : Effect :=
  let length := number_or_zero lenOrCB in
  let cb := callback_or lenOrCB (or_nop cb) in
  match file with
  | Some x => {| requested := []; invoked := []; thrown := Some x; unhandled := None |}
  | None =>
      if negative length then
        {| requested := []; invoked := []; thrown := Some (Invalid None);
           unhandled := None |}
      else
        let r := then_catch p (λ _, (cb, [])) (λ e, (cb, [Error e])) in
        {| requested := [OpFileTruncate fd length]; invoked := r.1;
           thrown := None; unhandled := r.2 |}
  end.

(** [typeof a === 'string' ? a : 'utf8'] *)
Definition encoding_or_utf8 (a : arg) : string :=
  match a with
  | Given (VStr s) => s
  | _ => "utf8"
  end.

(** [typeof a === 'number' ? a : null] *)
Definition number_or_null (a : arg) : arg :=
  match a with
  | Given (VNum n) => Given (VNum n)
  | _ => Given VNull
  end.

(** [function write(fd, data, cbPosOff?, cbLenEnc?, cbPos?, cb = nop)].
    [handle] is what [new promises.FileHandle(fd)] does, return or throw;
    [toString] is what [buffer.toString(encoding)] does for each
    encoding, return the text or throw; [p] is how the promise of
    [handle.write] ends, [bytesWritten] being what it is resolved with.
    With text and a third argument that is neither a function nor a
    number, the callback is called as a statement and [write] returns. *)
Definition write (fd : value) (data : contents) (cbPosOff cbLenEnc cbPos : arg)
    (cb : option Callback) (handle : option reason)
    (toString : string → option reason) (p : settled value) : Effect :=
  let cb := or_nop cb in
  match handle with
  | Some x => {| requested := []; invoked := []; thrown := Some x; unhandled := None |}
  | None =>
      match data with
      | Text _ =>
          let buffer := BufferFrom data in
          let go (position : arg) (encoding : string) (cb : Callback) :=
            let r := then_catch (evaluating (toString encoding) p)
                       (λ bytesWritten, (cb, [Plain VNull; Plain bytesWritten;
                                              Decoded buffer encoding]))
                       (λ e, (cb, [Error e])) in
            {| requested := [OpHandleWrite fd buffer (Arg (Given (VNum (Int 0))))
                               (LengthOf buffer) (Arg position)];
               invoked := r.1; thrown := None; unhandled := r.2 |} in
          match cbPosOff with
          | Fn c => go (Given VNull) "utf8" c
          | Given (VNum n) =>
              go (Given (VNum n)) (encoding_or_utf8 cbLenEnc) (callback_or cbPos cb)
          | _ =>
              let cb := callback_or cbLenEnc (callback_or cbPos cb) in
              {| requested := [];
                 invoked := [(cb_name cb, [Error (Invalid (Some "Invalid arguments."))])];
                 thrown := throws cb [Error (Invalid (Some "Invalid arguments."))];
                 unhandled := rejects cb [Error (Invalid (Some "Invalid arguments."))] |}
          end
      | Binary _ =>
          let buffer := BufferFrom data in
          let _cb := callback_or cbPos cb in
          let r := then_catch p
                     (λ bytesWritten, (_cb, [Plain VNull; Plain bytesWritten;
                                             Bytes buffer]))
                     (λ e, (_cb, [Error e])) in
          {| requested := [OpHandleWrite fd buffer (Arg cbPosOff) (Arg cbLenEnc)
                             (Arg (number_or_null cbPos))];
             invoked := r.1; thrown := None; unhandled := r.2 |}
      end
  end.

(** [async function openAsBlob(path, options?)]:
    [const handle = await promises.open(path, 'r');
     const buffer = await handle.readFile();
     await handle.close();
     return new Blob([buffer], options);]
    [opened], [read] and [closed] are how the three promises awaited end,
    each being looked at only when the function gets to it.  The result
    is how the promise returned ends, resolved with the blob made of the
    buffer read. *)
Definition openAsBlob (path : value) (opened : settled unit) (read : settled buffer)
    (closed : settled unit) : list operation * settled buffer :=
  match opened with
  | Failed e => ([OpOpen path "r"], Failed e)
  | Resolved _ =>
      match read with
      | Failed e => ([OpOpen path "r"; OpReadFile], Failed e)
      | Resolved buffer =>
          match closed with
          | Failed e => ([OpOpen path "r"; OpReadFile; OpClose], Failed e)
          | Resolved _ => ([OpOpen path "r"; OpReadFile; OpClose], Resolved buffer)
          end
      end
  end.

End Callbacks.

(** A response reporting a failed operation. *)
Definition sample_failure : Response :=
  {| scope := "fs"; id := "9abcd"; method := "stat"; stack_trail := " at remote";
     error := true;
     value_of := VObj {[ "code" := VStr "ENOENT"; "stack" := VStr "Error: no entry" ]} |}.

(** * Properties *)

(** ** Envelopes *)

Lemma isMessage_wire (r : Response) : isMessage (wire r) = Normal true.
Proof. reflexivity. Qed.

Lemma fields_wire (r : Response) :
  fields (wire r)
  = Normal (VStr (id r), value_of r, VBool (error r), VStr (stack_trail r)).
Proof. reflexivity. Qed.

Lemma fields_id response i v e s :
  fields response = Normal (i, v, e, s) → get "id" response = Normal i.
Proof.
  unfold fields. destruct (get "id" response) as [i'|]; [|done].
  simpl. destruct (get "value" response); [|done].
  simpl. destruct (get "error" response); [|done].
  simpl. destruct (get "stack" response); [|done].
  simpl. by intros [= -> _ _ _].
Qed.

Lemma bears_inj id id' response : bears id response → bears id' response → id = id'.
Proof. intros [_ H] [_ H']. congruence. Qed.

(** ** Settling a promise *)

Lemma settle_executors p s w : executors (settle p s w) = executors w.
Proof. unfold settle. by repeat case_match. Qed.

Lemma settle_timers p s w : timers (settle p s w) = timers w.
Proof. unfold settle. by repeat case_match. Qed.

Lemma settle_length p s w : length (promises (settle p s w)) = length (promises w).
Proof. unfold settle. repeat case_match; simpl; by rewrite ?length_insert. Qed.

Lemma settle_pending p s w :
  promises w !! p = Some Pending → promises (settle p s w) !! p = Some s.
Proof.
  intros Hp. unfold settle. rewrite Hp. simpl.
  apply list_lookup_insert_eq. by eapply lookup_lt_Some.
Qed.

Lemma settle_other p q s w :
  p ≠ q → promises (settle p s w) !! q = promises w !! q.
Proof.
  intros Hne. unfold settle. repeat case_match; try done.
  simpl. by apply list_lookup_insert_ne.
Qed.

Lemma settle_settled p q s s' w :
  promises w !! q = Some s → s ≠ Pending → promises (settle p s' w) !! q = Some s.
Proof.
  intros Hq Hs. destruct (decide (p = q)) as [->|Hne].
  - unfold settle. rewrite Hq. by destruct s.
  - by rewrite settle_other.
Qed.

(** ** What one event does to the world *)

(** A delivery either leaves the world alone or consumes the record of
    the identifier the message bears, calling [resolve] or [reject] of
    that record once. *)
Lemma handleResponse_effect response trace w :
  (handleResponse response trace w).2 = w
  ∨ ∃ s ex q st,
      bears s response ∧ executors w !! s = Some ex
      ∧ (q = resolve ex ∨ q = reject ex)
      ∧ (handleResponse response trace w).2 = executors_delete s (settle q st w).
Proof.
  unfold handleResponse.
  destruct (isMessage response) as [[|]|] eqn:Hm; [|by left..].
  destruct (fields response) as [[[[i v] e] stk]|] eqn:Hf; [|by left].
  destruct (executors_get i w) as [ex|] eqn:Hex; [|by left].
  destruct i as [| | | |s|]; try discriminate. simpl in Hex.
  apply fields_id in Hf.
  destruct (truthy e).
  - destruct (append_stack v stk) as [e'|]; [|by left].
    right. exists s, ex, (reject ex), (Rejected (Data e')). by repeat split; auto.
  - destruct (isFileData v) as [[|]|]; [| |by left].
    + destruct (new_PortFile (fs ex) v) as [f|]; [|by left].
      right. exists s, ex, (resolve ex), (Fulfilled (Proxy f)). by repeat split; auto.
    + right. exists s, ex, (resolve ex), (Fulfilled (Data v)). by repeat split; auto.
Qed.

Lemma fire_effect k trace w :
  fire k trace w = w
  ∨ ∃ t, timers w !! k = Some t ∧ fired t = false
      ∧ fire k trace w
        = settle (timer_reject t)
            (Rejected (Failure (timeout_error (timer_id t) (timer_stack t) trace)))
            (mark_fired k t w).
Proof.
  unfold fire. destruct (timers w !! k) as [t|] eqn:Ht; [|by left].
  destruct (fired t) eqn:Hf; [by left|]. right. by exists t.
Qed.

Lemma request_promise req opts random trace w :
  (request req opts random trace w).2 = length (promises w).
Proof. unfold request. by destruct (port opts). Qed.

(** A call on a port posts its request with the tag, the identifier and
    the captured stack added, and posts nothing without a port. *)
Lemma request_posts req opts random trace w :
  outbox (request req opts random trace w).1
  = match port opts with
    | Some prt =>
        outbox w ++ [(prt, VObj (<["stack" := VStr (request_stack trace)]>
                                 (<["id" := VStr (request_id random)]>
                                 (<["_zenfs" := VBool true]> req))))]
    | None => outbox w
    end.
Proof.
  unfold request. destruct (port opts); simpl; [done|].
  unfold settle. simpl. by repeat case_match.
Qed.

Lemma run_app w es es' : run w (es ++ es') = run (run w es) es'.
Proof. apply foldl_app. Qed.

(** ** A settled promise stays as it is *)

Lemma step_settled w e q s :
  promises w !! q = Some s → s ≠ Pending → promises (step w e) !! q = Some s.
Proof.
  intros Hq Hs. destruct e as [req opts random trace|response trace|k trace]; simpl.
  - unfold request. destruct (port opts); simpl.
    + by apply lookup_app_l_Some.
    + apply settle_settled; [|done]. simpl. by apply lookup_app_l_Some.
  - destruct (handleResponse_effect response trace w) as [->|(s0&ex&p&st&_&_&_&->)];
      [done|]. simpl. by apply settle_settled.
  - destruct (fire_effect k trace w) as [->|(t&_&_&->)]; [done|].
    by apply settle_settled.
Qed.

Lemma run_settled w es q s :
  promises w !! q = Some s → s ≠ Pending → promises (run w es) !! q = Some s.
Proof.
  revert w. induction es as [|e es IH]; intros w Hq Hs; [done|].
  simpl. apply IH; [|done]. by apply step_settled.
Qed.

(** ** References stay within the promises that exist *)

Lemma wf_initial : wf initial.
Proof. split; [apply map_Forall_empty | constructor]. Qed.

Lemma wf_settle p s w : wf w → wf (settle p s w).
Proof.
  intros [He Ht]. unfold wf. by rewrite settle_executors, settle_timers, settle_length.
Qed.

Lemma step_wf w e : wf w → wf (step w e).
Proof.
  intros [He Ht]. destruct e as [req opts random trace|response trace|k trace]; simpl.
  - assert (wf (setTimeout (armed opts random trace (length (promises w)))
              (executors_set (request_id random)
                 {| resolve := length (promises w); reject := length (promises w);
                    fs := opt_fs opts |} (new_promise w)))) as [He' Ht'].
    { split; simpl.
      - apply map_Forall_insert_2; simpl; [rewrite length_app; simpl; lia|].
        eapply map_Forall_impl; [exact He|]. simpl. intros _ ex. rewrite length_app. lia.
      - apply Forall_app. split.
        + eapply Forall_impl; [exact Ht|]. simpl. intros t. rewrite length_app. lia.
        + constructor; [|constructor]. simpl. rewrite length_app. simpl. lia. }
    simpl in He', Ht'. apply Forall_app in Ht' as [Ht' Hnew].
    unfold request. destruct (port opts); simpl.
    + split; simpl; [done|]. apply Forall_app. by split.
    + apply wf_settle. by split.
  - destruct (handleResponse_effect response trace w) as [->|(s&ex&q&st&_&_&_&->)];
      [by split|].
    destruct (wf_settle q st w) as [He' Ht']; [by split|].
    split; simpl; [|done]. by apply map_Forall_delete.
  - destruct (fire_effect k trace w) as [->|(t&Hk&_&->)]; [by split|].
    apply wf_settle. split; simpl; [done|].
    apply Forall_insert; [done|]. simpl.
    by eapply (Forall_lookup_1 _ _ _ _ Ht).
Qed.

Lemma run_wf w es : wf w → wf (run w es).
Proof.
  revert w. induction es as [|e es IH]; intros w Hw; [done|].
  simpl. by apply IH, step_wf.
Qed.

(** ** A call that waits for its response *)

Lemma request_waiting req opts prt random trace w :
  wf w → port opts = Some prt →
  waiting (length (promises w)) (request_id random) (length (timers w))
    (armed opts random trace (length (promises w)))
    (request req opts random trace w).1.
Proof.
  intros [He Ht] Hp. unfold request. rewrite Hp. simpl.
  split; [|split; [|split]]; simpl.
  - by apply list_lookup_middle.
  - by apply list_lookup_middle.
  - apply map_Forall_insert_2; [done|].
    eapply map_Forall_impl; [exact He|]. simpl. intros key ex ? ?. lia.
  - intros j t' Hj Hr. apply lookup_app_Some in Hj as [Hj|[Hlen Hj]].
    + apply (Forall_lookup_1 _ _ _ _ Ht) in Hj. simpl in Hj. lia.
    + apply list_lookup_singleton_Some in Hj as [Hj _]. lia.
Qed.

Lemma step_waiting p id k t w e :
  waiting p id k t w → timer_reject t = p →
  ¬ answers id e → ¬ expires k e →
  waiting p id k t (step w e).
Proof.
  intros (Hp & Hk & He & Ht) Hr Hna Hne.
  pose proof (lookup_lt_Some _ _ _ Hp) as Hlt.
  pose proof (lookup_lt_Some _ _ _ Hk) as Hklt.
  destruct e as [req opts random trace|response trace|j trace]; simpl.
  - assert (waiting p id k t
              (setTimeout (armed opts random trace (length (promises w)))
                 (executors_set (request_id random)
                    {| resolve := length (promises w); reject := length (promises w);
                       fs := opt_fs opts |} (new_promise w)))) as (Hp' & Hk' & He' & Ht').
    { split; [|split; [|split]]; simpl.
      - by apply lookup_app_l_Some.
      - by apply lookup_app_l_Some.
      - apply map_Forall_insert_2; [simpl; lia|done].
      - intros i t' Hi Hr'. apply lookup_app_Some in Hi as [Hi|[Hlen Hi]]; [by eapply Ht|].
        apply list_lookup_singleton_Some in Hi as [_ <-]. simpl in Hr'. lia. }
    simpl in Hp', Hk', He', Ht'.
    unfold request. destruct (port opts); simpl; [by repeat split|].
    split; [|split; [|split]].
    + rewrite settle_other; [|lia]. simpl. by apply lookup_app_l_Some.
    + rewrite settle_timers. simpl. done.
    + rewrite settle_executors. done.
    + rewrite settle_timers. simpl. intros i t' Hi. by eapply Ht.
  - destruct (handleResponse_effect response trace w) as [->|(s&ex&q&st&Hb&Hs&Hq&->)];
      [by repeat split|].
    assert (q ≠ p) as Hqp.
    { intros Heq. apply Hna. simpl.
      rewrite <- (map_Forall_lookup_1 _ _ _ _ He Hs); [done|].
      destruct Hq as [Hq|Hq]; rewrite <- Hq; auto. }
    split; [|split; [|split]]; simpl.
    + by rewrite settle_other.
    + by rewrite settle_timers.
    + rewrite settle_executors. by apply map_Forall_delete.
    + rewrite settle_timers. done.
  - simpl in Hne.
    destruct (fire_effect j trace w) as [->|(t'&Hj&_&->)]; [by repeat split|].
    assert (timer_reject t' ≠ p) as Hqp by (intros Heq; by apply Hne, (Ht j t')).
    split; [|split; [|split]].
    + rewrite settle_other; done.
    + rewrite settle_timers. simpl. rewrite list_lookup_insert_ne; done.
    + rewrite settle_executors. done.
    + rewrite settle_timers. simpl. intros i t'' Hi Hr'.
      destruct (decide (i = j)) as [->|Hij].
      * rewrite list_lookup_insert_eq in Hi by (by eapply lookup_lt_Some).
        injection Hi as <-. simpl in Hr'. done.
      * rewrite list_lookup_insert_ne in Hi by done. by eapply Ht.
Qed.

Lemma run_waiting p id k t w es :
  waiting p id k t w → timer_reject t = p →
  Forall (λ e, ¬ answers id e ∧ ¬ expires k e) es →
  waiting p id k t (run w es).
Proof.
  intros Hw Hr Hes. revert w Hw.
  induction Hes as [|e es [Hna Hne] _ IH]; intros w Hw; [done|].
  simpl. by apply IH, step_waiting.
Qed.

Lemma fire_waiting p id k t w trace :
  waiting p id k t w → timer_reject t = p → fired t = false →
  promises (fire k trace w) !! p
  = Some (Rejected (Failure (timeout_error (timer_id t) (timer_stack t) trace))).
Proof.
  intros (Hp & Hk & _) Hr Hf. unfold fire. rewrite Hk, Hf, Hr.
  by apply settle_pending.
Qed.

(** The state of a call issued on a port in a world reached from the
    initial one, after any events that neither answer it nor let its
    timer come due. *)
Lemma request_then_run history req opts prt random trace es :
  port opts = Some prt →
  Forall (λ e, ¬ answers (request_id random) e
               ∧ ¬ expires (length (timers (run initial history))) e) es →
  waiting (length (promises (run initial history))) (request_id random)
    (length (timers (run initial history)))
    (armed opts random trace (length (promises (run initial history))))
    (run (request req opts random trace (run initial history)).1 es).
Proof.
  intros Hp Hes. apply run_waiting; [|done..].
  eapply request_waiting; [|done]. apply run_wf, wf_initial.
Qed.

(** ** The timer of a call and the record of its identifier *)






(** ** The record of a call among other calls *)

Lemma isMessage_object response :
  isMessage response = Normal true → ∃ props, response = VObj props.
Proof. destruct response; try discriminate. by eexists. Qed.

Lemma step_keeps_own_record w e id ex :
  executors w !! id = Some ex → ¬ answers id e → ¬ draws id e →
  executors (step w e) !! id = Some ex.
Proof.
  intros Hid Hna Hnd. destruct e as [req opts random trace|response trace|k trace]; simpl.
  - simpl in Hnd. unfold request. destruct (port opts); simpl;
      rewrite ?settle_executors; simpl; by rewrite lookup_insert_ne.
  - destruct (handleResponse_effect response trace w) as [->|(s&ex'&q&st&Hb&_&_&->)];
      [done|]. simpl. rewrite settle_executors.
    rewrite lookup_delete_ne; [done|]. intros ->. by apply Hna.
  - destruct (fire_effect k trace w) as [->|(t&_&_&->)]; [done|].
    by rewrite settle_executors.
Qed.

Lemma run_keeps_own_record w es id ex :
  executors w !! id = Some ex →
  Forall (λ e, ¬ answers id e ∧ ¬ draws id e) es →
  executors (run w es) !! id = Some ex.
Proof.
  intros Hid Hes. revert w Hid.
  induction Hes as [|e es [Hna Hnd] _ IH]; intros w Hid; [done|].
  simpl. by apply IH, step_keeps_own_record.
Qed.

(** The record and the promise of a call on a port after events that
    neither answer it, nor let its timer come due, nor draw its
    identifier again. *)
Lemma request_undisturbed history req opts prt random trace es :
  port opts = Some prt →
  Forall (λ e, ¬ answers (request_id random) e
               ∧ ¬ expires (length (timers (run initial history))) e
               ∧ ¬ draws (request_id random) e) es →
  let w := run initial history in
  let w2 := run (request req opts random trace w).1 es in
  executors w2 !! request_id random
    = Some {| resolve := length (promises w); reject := length (promises w);
              fs := opt_fs opts |}
  ∧ promises w2 !! length (promises w) = Some Pending.
Proof.
  intros Hp Hes w w2. split.
  - apply run_keeps_own_record.
    + unfold request. rewrite Hp. simpl. by rewrite lookup_insert_eq.
    + eapply Forall_impl; [exact Hes|]. simpl. tauto.
  - assert (Forall (λ e, ¬ answers (request_id random) e
                         ∧ ¬ expires (length (timers (run initial history))) e) es)
      as Hes' by (eapply Forall_impl; [exact Hes|]; simpl; tauto).
    by destruct (request_then_run history req opts prt random trace es Hp Hes').
Qed.

(** ** Successful responses *)

Lemma isFileData_resolution owner v :
  v ≠ VNull →
  (isFileData v = Normal true
   ∧ ∃ f, new_PortFile owner v = Normal f ∧ resolution owner v = Proxy f)
  ∨ (isFileData v = Normal false ∧ resolution owner v = Data v).
Proof.
  intros Hv. destruct v as [| | | | |props]; try done; try (by right).
  unfold isFileData, new_PortFile, resolution. simpl.
  destruct (props !! "fd"), (props !! "path"), (props !! "position");
    try (by right). left. split; [done|]. by eexists.
Qed.

(** A successful response whose identifier has a record and whose value
    is not [null]: the record is removed and the promise of the record is
    resolved, with the value, or with the proxy built from it when the
    value has the fields of a descriptor. *)
Lemma handleResponse_success r trace w ex :
  executors w !! id r = Some ex → error r = false → value_of r ≠ VNull →
  handleResponse (wire r) trace w
  = (Normal (wire r),
     executors_delete (id r)
       (settle (resolve ex) (Fulfilled (resolution (fs ex) (value_of r))) w)).
Proof.
  intros Hex He Hv. unfold handleResponse.
  rewrite isMessage_wire, fields_wire. simpl. rewrite Hex, He. simpl.
  destruct (isFileData_resolution (fs ex) (value_of r) Hv)
    as [(-> & f & -> & ->)|(-> & ->)]; done.
Qed.

(** An error response whose identifier has a record and whose value is
    an object with a [stack]: the record is removed and the promise of
    the record is rejected with that object, the stack of the envelope
    appended to its own. *)
Lemma handleResponse_error r trace w ex props s :
  executors w !! id r = Some ex → error r = true →
  value_of r = VObj props → props !! "stack" = Some (VStr s) →
  let e := VObj (<["stack" := VStr (s +:+ stack_trail r)]> props) in
  handleResponse (wire r) trace w
  = (set "value" e (wire r),
     executors_delete (id r) (settle (reject ex) (Rejected (Data e)) w)).
Proof.
  intros Hex He Hv Hs e. unfold handleResponse.
  rewrite isMessage_wire, fields_wire. simpl. rewrite Hex, He, Hv. simpl.
  unfold append_stack. simpl. rewrite Hs. simpl. done.
Qed.

(** Every value other than [null] that lacks the tag is ignored. *)
Lemma untagged_ignored (v : value) (trace : string) (w : World) :
  v ≠ VNull → tagged v = false → handleResponse v trace w = (Normal VUndefined, w).
Proof.
  intros Hv Ht. unfold handleResponse.
  assert (isMessage v = Normal false) as ->; [|done].
  destruct v as [| | | | |props]; try done.
  unfold isMessage. simpl in *. destruct (props !! "_zenfs"); simpl; by rewrite ?Ht.
Qed.

(** ** Several calls in flight *)

Lemma calls_length w xs :
  length (promises (run w (call_of <$> xs))) = length (promises w) + length xs.
Proof.
  revert w. induction xs as [|x xs IH]; intros w; simpl; [lia|].
  rewrite IH. unfold request. destruct (port (x_opts x)); simpl;
    rewrite ?settle_length; simpl; rewrite length_app; simpl; lia.
Qed.

(** Calls issued one after the other leave alone the records of other
    identifiers and the promises that exist already. *)
Lemma calls_executors w xs k :
  k ∉ x_id <$> xs →
  executors (run w (call_of <$> xs)) !! k = executors w !! k.
Proof.
  revert w. induction xs as [|x xs IH]; intros w Hk; [done|].
  rewrite fmap_cons in Hk. apply not_elem_of_cons in Hk as [Hne Hk].
  simpl. rewrite IH by done. unfold request.
  destruct (port (x_opts x)); simpl; rewrite ?settle_executors; simpl;
    by rewrite lookup_insert_ne.
Qed.

Lemma calls_promises w xs q :
  q < length (promises w) →
  promises (run w (call_of <$> xs)) !! q = promises w !! q.
Proof.
  revert w. induction xs as [|x xs IH]; intros w Hq; [done|].
  simpl. rewrite IH.
  - unfold request. destruct (port (x_opts x)); simpl.
    + by apply lookup_app_l.
    + rewrite settle_other by lia. simpl. by apply lookup_app_l.
  - unfold request. destruct (port (x_opts x)); simpl;
      rewrite ?settle_length; simpl; rewrite length_app; lia.
Qed.

Lemma calls_registered w xs :
  Forall answered xs → NoDup (x_id <$> xs) →
  Forall (registered (run w (call_of <$> xs)))
         (zip xs (seq (length (promises w)) (length xs))).
Proof.
  intros Hxs. revert w. induction Hxs as [|x xs Hx _ IH]; intros w Hnd; [constructor|].
  rewrite fmap_cons in Hnd. apply NoDup_cons in Hnd as [Hx' Hnd].
  destruct Hx as ([prt Hp] & _). simpl.
  assert (length (promises (request (x_req x) (x_opts x) (x_random x) (x_trace x) w).1)
          = S (length (promises w))) as Hlen.
  { unfold request. rewrite Hp. simpl. rewrite length_app. simpl. lia. }
  constructor.
  - split; simpl.
    + rewrite calls_executors by done. unfold request. rewrite Hp. simpl.
      by rewrite lookup_insert_eq.
    + rewrite calls_promises by lia. unfold request. rewrite Hp. simpl.
      by apply list_lookup_middle.
  - specialize (IH (request (x_req x) (x_opts x) (x_random x) (x_trace x) w).1 Hnd).
    by rewrite Hlen in IH.
Qed.

(** Responses delivered in any order reach the promises of their own
    calls. *)
Lemma answers_fulfil w (xps : list (Exchange * PromiseRef)) :
  Forall (λ xp, answered xp.1) xps →
  NoDup ((λ xp, x_id xp.1) <$> xps) → NoDup (snd <$> xps) →
  Forall (registered w) xps →
  Forall (λ xp, promises (run w ((λ xp, answer_of xp.1) <$> xps)) !! xp.2
                = Some (Fulfilled (resolution (opt_fs (x_opts xp.1))
                                              (value_of (x_response xp.1))))) xps.
Proof.
  intros Hxs. revert w.
  induction Hxs as [|[x p] xps Hx _ IH]; intros w Hid Hps Hreg; [constructor|].
  rewrite fmap_cons in Hid. rewrite fmap_cons in Hps. simpl in Hid, Hps.
  apply NoDup_cons in Hid as [Hid' Hid]. apply NoDup_cons in Hps as [Hps' Hps].
  apply Forall_cons in Hreg as [[Hex Hp] Hreg]. simpl in Hx, Hex, Hp.
  destruct Hx as (_ & Hxid & Herr & Hv).
  simpl. rewrite <- Hxid in Hex.
  rewrite (handleResponse_success _ _ _ _ Hex Herr Hv). simpl.
  constructor.
  - simpl. apply run_settled; [|done]. simpl. by apply settle_pending.
  - apply IH; [done..|].
    apply Forall_forall. intros [x' p'] Hin.
    pose proof (proj1 (Forall_forall _ _) Hreg _ Hin) as [Hex' Hp'].
    simpl in Hex', Hp'. split; simpl.
    + rewrite settle_executors. rewrite lookup_delete_ne; [done|].
      rewrite Hxid. intros Heq. apply Hid'. rewrite Heq.
      by apply (list_elem_of_fmap_2 (λ xp, x_id xp.1) _ (x', p')).
    + rewrite settle_other; [done|]. intros ->. apply Hps'.
      by apply (list_elem_of_fmap_2 snd _ (x', p')).
Qed.

(** ** Listeners *)

Lemma listener_call_object l props :
  listener_call l (VObj props) = Normal (handler l, default (VObj props) (props !! "data")).
Proof.
  unfold listener_call. simpl. destruct (props !! "data"); reflexivity.
Qed.

Lemma listener_call_event l m : listener_call l (MessageEvent m) = Normal (handler l, m).
Proof. reflexivity. Qed.

(** A value that is not an object, handed as such to a listener, makes
    the test ['data' in message] throw. *)
Lemma listener_call_primitive l m :
  (∀ props, m ≠ VObj props) → listener_call l m = Throw TypeError.
Proof. intros Hm. destruct m; try done. by destruct (Hm props). Qed.

Lemma remove_last_fresh f ls : f ∉ fn <$> ls → remove_last f ls = ls.
Proof.
  induction ls as [|l ls IH]; [done|].
  rewrite fmap_cons. intros [Hne Hnin]%not_elem_of_cons. simpl.
  rewrite bool_decide_eq_false_2 by done.
  rewrite bool_decide_eq_false_2 by done. done.
Qed.

Lemma allocated_fresh next ls : Forall (λ l, fn l < next) ls → next ∉ fn <$> ls.
Proof.
  intros Hall [l [Heq Hin]]%list_elem_of_fmap.
  apply (proj1 (Forall_forall _ _) Hall) in Hin. lia.
Qed.

(** [detach] hands the port a function object of its own making, which
    the port has never seen: no listener is removed. *)
Lemma detach_removes_nothing (port : Port) (h : nat) (g : FunRef) :
  allocated g port →
  "off" ∈ members port ∨ "removeEventListener" ∈ members port →
  detach port h g = Normal port.
Proof.
  intros [He Ht] Hm. apply allocated_fresh in He, Ht.
  unfold detach. case_bool_decide as Hoff; unfold invoke.
  - rewrite bool_decide_eq_true_2 by done. simpl.
    unfold off. simpl. rewrite remove_last_fresh by done. by destruct port.
  - destruct Hm as [Hm'|Hm']; [contradiction|].
    rewrite bool_decide_eq_true_2 by done. simpl.
    unfold removeEventListener. simpl. rewrite remove_last_fresh by done.
    by destruct port.
Qed.

(** ** A response that carries [null] *)

Lemma bears_wire i r : bears i (wire r) → id r = i.
Proof. intros [_ H]. by injection H. Qed.

(** A successful response whose identifier has a record and whose value
    is [null] makes [isFileData] throw, before anything is settled or
    removed. *)
Lemma handleResponse_null r trace w ex :
  executors w !! id r = Some ex → error r = false → value_of r = VNull →
  handleResponse (wire r) trace w = (Throw TypeError, w).
Proof.
  intros Hex He Hv. unfold handleResponse.
  rewrite isMessage_wire, fields_wire. simpl. by rewrite Hex, He, Hv.
Qed.

(** The calls and the responses of other exchanges, whose identifiers
    differ from that of [x], neither answer the call of [x], nor let a
    timer come due, nor draw the identifier of [x]. *)
Lemma others_undisturbing (x : Exchange) (ys : list Exchange) (k : nat) :
  Forall addressed ys → x_id x ∉ x_id <$> ys →
  Forall (λ e, ¬ answers (x_id x) e ∧ ¬ expires k e ∧ ¬ draws (x_id x) e)
         ((call_of <$> ys) ++ reverse (answer_of <$> ys)).
Proof.
  intros Hys Hx. apply Forall_app. split.
  - apply Forall_fmap, Forall_forall. intros y Hy. simpl.
    split; [tauto|]. split; [tauto|]. intros Heq. apply Hx.
    apply list_elem_of_fmap. exists y. by split.
  - apply Forall_reverse, Forall_fmap, Forall_forall. intros y Hy. simpl.
    split; [|tauto]. intros Hb%bears_wire. apply Hx.
    apply list_elem_of_fmap. exists y. split; [|done].
    destruct (proj1 (Forall_forall _ _) Hys y Hy) as [_ Hid]. congruence.
Qed.

Lemma null_response_stalls (history : list event) (pre post : list Exchange)
    (x : Exchange) :
  let w := run initial history in
  let xs := pre ++ x :: post in
  let p := length (promises w) + length pre in
  let before := run w ((call_of <$> xs) ++ reverse (answer_of <$> post)) in
  let after := run w ((call_of <$> xs) ++ reverse (answer_of <$> xs)) in
  Forall addressed xs → NoDup (x_id <$> xs) →
  error (x_response x) = false → value_of (x_response x) = VNull →
  handleResponse (wire (x_response x)) (x_handler_trace x) before
  = (Throw TypeError, before)
  ∧ promises after !! p = Some Pending
  ∧ executors after !! x_id x
    = Some {| resolve := p; reject := p; fs := opt_fs (x_opts x) |}.
Proof.
  intros w xs p before after Hxs Hnd He Hv.
  apply Forall_app in Hxs as [Hpre Hxs]. apply Forall_cons in Hxs as [[[prt Hp] Hid] Hpost].
  unfold xs in Hnd. rewrite fmap_app, fmap_cons in Hnd.
  apply NoDup_app in Hnd as (_ & Hdis & Hnd). apply NoDup_cons in Hnd as [Hxpost _].
  assert (x_id x ∉ x_id <$> pre) as Hxpre.
  { intros Hin. apply (Hdis _ Hin). by left. }
  set (h := history ++ (call_of <$> pre)).
  set (k := length (timers (run initial h))).
  assert (length (promises (run initial h)) = p) as Hlen.
  { unfold h. rewrite run_app. apply calls_length. }
  pose proof (others_undisturbing x post k Hpost Hxpost) as Hes1.
  pose proof (others_undisturbing x pre k Hpre Hxpre) as Hes2.
  apply Forall_app in Hes2 as [_ Hes2].
  set (es1 := (call_of <$> post) ++ reverse (answer_of <$> post)) in *.
  set (es2 := reverse (answer_of <$> pre)) in *.
  set (w3 := run (request (x_req x) (x_opts x) (x_random x) (x_trace x)
                    (run initial h)).1 es1).
  assert (run initial h = run w (call_of <$> pre)) as Hh by apply run_app.
  assert (∀ es, run w ((call_of <$> xs) ++ es)
                = run (request (x_req x) (x_opts x) (x_random x) (x_trace x)
                         (run initial h)).1 ((call_of <$> post) ++ es)) as Hrun.
  { intros es. unfold xs. rewrite fmap_app, fmap_cons, <- !app_assoc. simpl.
    rewrite run_app, Hh. done. }
  assert (before = w3) as Hbefore by apply Hrun.
  destruct (request_undisturbed h (x_req x) (x_opts x) prt (x_random x) (x_trace x)
              es1 Hp Hes1) as [Hrec _].
  fold w3 in Hrec. rewrite Hlen in Hrec.
  assert (handleResponse (wire (x_response x)) (x_handler_trace x) w3
          = (Throw TypeError, w3)) as Hthrow.
  { eapply handleResponse_null; [|done..]. rewrite Hid. exact Hrec. }
  assert (after = run (request (x_req x) (x_opts x) (x_random x) (x_trace x)
                         (run initial h)).1 (es1 ++ es2)) as Hafter.
  { unfold after. rewrite Hrun. unfold xs.
    rewrite fmap_app, fmap_cons, reverse_app, reverse_cons, <- !app_assoc.
    rewrite (app_assoc (call_of <$> post)). fold es1 es2.
    rewrite !run_app. fold w3. simpl. by rewrite Hthrow. }
  split; [by rewrite Hbefore|]. rewrite Hafter.
  assert (Forall (λ e, ¬ answers (x_id x) e ∧ ¬ expires k e ∧ ¬ draws (x_id x) e)
            (es1 ++ es2)) as Hes by (apply Forall_app; by split).
  destruct (request_undisturbed h (x_req x) (x_opts x) prt (x_random x) (x_trace x)
              (es1 ++ es2) Hp Hes) as [Hrec' Hpend].
  rewrite Hlen in Hrec', Hpend. by split.
Qed.

(** Calls are issued one after the other on their ports and draw
    pairwise distinct identifiers; their responses, successful and
    carrying values other than [null], are then delivered in the reverse
    order.  The call of rank [i] was handed the promise of rank [i], and
    that promise ends up resolved with what the response bearing its own
    identifier carries: the value itself, or the proxy built from it and
    bound to the stub of that call when the value is a descriptor. *)
Lemma reverse_delivery (w : World) (xs : list Exchange) :
  Forall answered xs → NoDup (x_id <$> xs) →
  ∀ i x, xs !! i = Some x →
    (request (x_req x) (x_opts x) (x_random x) (x_trace x)
             (run w (call_of <$> take i xs))).2 = length (promises w) + i
    ∧ promises (run w ((call_of <$> xs) ++ reverse (answer_of <$> xs)))
        !! (length (promises w) + i)
      = Some (Fulfilled (resolution (opt_fs (x_opts x)) (value_of (x_response x)))).
Proof.
  intros Hxs Hnd i x Hi.
  pose proof (lookup_lt_Some _ _ _ Hi) as Hlt. split.
  - rewrite request_promise, calls_length, length_take. lia.
  - rewrite run_app.
    set (w1 := run w (call_of <$> xs)).
    set (ps := seq (length (promises w)) (length xs)).
    assert (length xs = length ps) as Hlen by (unfold ps; by rewrite length_seq).
    assert (fst <$> zip xs ps = xs) as Hfst by (apply fst_zip; lia).
    assert (snd <$> zip xs ps = ps) as Hsnd by (apply snd_zip; lia).
    assert ((λ xp : Exchange * nat, answer_of xp.1) <$> zip xs ps = answer_of <$> xs)
      as Hans by (rewrite <- Hfst at 2; by rewrite <- list_fmap_compose).
    assert ((λ xp : Exchange * nat, x_id xp.1) <$> zip xs ps = x_id <$> xs)
      as Hids by (rewrite <- Hfst at 2; by rewrite <- list_fmap_compose).
    pose proof (answers_fulfil w1 (reverse (zip xs ps))) as H.
    rewrite !fmap_reverse, Hans, Hids, Hsnd in H.
    assert ((x, length (promises w) + i) ∈ reverse (zip xs ps)) as Hin.
    { apply elem_of_reverse, list_elem_of_lookup. exists i.
      apply lookup_zip_with_Some. exists x, (length (promises w) + i).
      split; [done|]. split; [done|]. unfold ps. by apply lookup_seq. }
    refine (proj1 (Forall_forall _ _) (H _ _ _ _) _ Hin).
    + apply Forall_reverse, Forall_forall. intros [x' p'] Hin'.
      simpl. eapply (proj1 (Forall_forall _ _)); [exact Hxs|].
      rewrite <- Hfst. by apply (list_elem_of_fmap_2 fst _ (x', p')).
    + by rewrite reverse_Permutation.
    + rewrite reverse_Permutation. apply NoDup_seq.
    + apply Forall_reverse. by apply calls_registered.
Qed.

Lemma reverse_delivery_witness :
  Forall answered sample_exchanges
  ∧ NoDup (x_id <$> sample_exchanges)
  ∧ promises (run initial ((call_of <$> sample_exchanges)
                           ++ reverse (answer_of <$> sample_exchanges)))
    = [Fulfilled (Data (VStr "first"));
       Fulfilled (Proxy {| file_fs := Some 4; file_fd := VNum (Int 3);
                           file_path := VStr "/a.txt";
                           file_position := VNum (Int 0) |});
       Fulfilled (Data (VNum (Int 42)))]
  ∧ promises (run initial ((call_of <$> sample_exchanges)
                           ++ reverse (answer_of <$> sample_exchanges))) !! 0
    = Some (Fulfilled (Data (VStr "first"))).
Proof.
  assert (Forall answered sample_exchanges) as Hxs.
  { repeat constructor; simpl; try (by eexists); discriminate. }
  assert (NoDup (x_id <$> sample_exchanges)) as Hnd.
  { refine (bool_decide_unpack (NoDup (x_id <$> sample_exchanges)) _). by vm_compute. }
  split; [exact Hxs|]. split; [exact Hnd|]. split; [reflexivity|].
  exact (proj2 (reverse_delivery initial sample_exchanges Hxs Hnd 0 _ eq_refl)).
Defined.

(** * The claims *)




(** C2.  A call issued on a port arms a timer with the configured delay,
    1000 when none is given.  As long as no message bearing the
    identifier of the call is delivered and the timer has not come due,
    the promise stays pending; when the timer then comes due, the promise
    is rejected with an [EIO] error whose message embeds the identifier
    and whose stack is the stack of the error followed by the stack the
    call captured. *)
Theorem request_times_out (history : list event) req opts prt random trace es tr :
  port opts = Some prt →
  let w := run initial history in
  let w1 := (request req opts random trace w).1 in
  let p := (request req opts random trace w).2 in
  let k := length (timers w) in
  Forall (λ e, ¬ answers (request_id random) e ∧ ¬ expires k e) es →
  timers w1 !! k
    = Some {| delay := default 1000%Z (timeout opts); timer_id := request_id random;
              timer_stack := request_stack trace; timer_reject := p; fired := false |}
  ∧ promises (run w1 es) !! p = Some Pending
  ∧ promises (run w1 (es ++ [Expire k tr])) !! p
    = Some (Rejected (Failure {| errno := EIO;
                                 message := "RPC Failed (#" +:+ request_id random +:+ ")";
                                 stack := tr +:+ request_stack trace |})).
Proof.
  intros Hp w w1 p k Hes.
  assert (wf w) as Hwf by apply run_wf, wf_initial.
  pose proof (request_waiting req _ _ random trace w Hwf Hp) as Hw.
  pose proof (request_then_run history req opts prt random trace es Hp Hes) as Hrun.
  fold w w1 k in Hw, Hrun. unfold p. rewrite request_promise.
  split; [by destruct Hw as (_ & ? & _)|].
  split; [by destruct Hrun as (? & _)|].
  rewrite run_app. simpl. by apply (fire_waiting _ _ _ _ _ tr Hrun).
Qed.

Lemma request_times_out_witness :
  port sample_options = Some 0
  ∧ Forall (λ e, ¬ answers (request_id "0.fedcba9876543") e ∧ ¬ expires 1 e)
      [Deliver (wire (sample_response "9abcd" (VStr "x"))) "trace"]
  ∧ promises (run initial [sample_call;
                Call ∅ sample_options "0.fedcba9876543" "Error: at caller";
                Deliver (wire (sample_response "9abcd" (VStr "x"))) "trace";
                Expire 1 "ApiError"]) !! 1
    = Some (Rejected (Failure {| errno := EIO; message := "RPC Failed (#76543)";
                                 stack := "ApiError at caller" |})).
Proof.
  assert (Forall (λ e, ¬ answers (request_id "0.fedcba9876543") e ∧ ¬ expires 1 e)
            [Deliver (wire (sample_response "9abcd" (VStr "x"))) "trace"]) as Hes.
  { constructor; [|constructor]. split; [|intros []].
    intros [_ H]. discriminate H. }
  split; [reflexivity|]. split; [exact Hes|].
  exact (proj2 (proj2 (request_times_out [sample_call] ∅ sample_options 0
                         "0.fedcba9876543" "Error: at caller" _ "ApiError"
                         eq_refl Hes))).
Defined.

(** C3, at inputs where the code departs from the claim.  Calls are
    issued one after the other on their ports and draw pairwise distinct
    identifiers; each response bears the identifier of its call, and the
    responses are delivered in the reverse order.  The call of rank [i]
    was handed the promise of rank [i]; when its response reports success
    with the value [null], [isFileData] finds [typeof null == 'object']
    and goes on to ['fd' in null]: [handleResponse] throws a
    [TypeError] when that response arrives, and once all responses are
    delivered the promise of the call is still pending, not resolved
    with [null], and its record is still in the table.  With values
    other than [null] every call is resolved with what its own response
    carries ([reverse_delivery]). *)
Theorem null_response_leaves_call_pending (history : list event) (xs : list Exchange)
    (i : nat) (x : Exchange) :
  let w := run initial history in
  let p := length (promises w) + i in
  let before := run w ((call_of <$> xs) ++ reverse (answer_of <$> drop (S i) xs)) in
  let after := run w ((call_of <$> xs) ++ reverse (answer_of <$> xs)) in
  Forall addressed xs → NoDup (x_id <$> xs) →
  xs !! i = Some x →
  error (x_response x) = false → value_of (x_response x) = VNull →
  (request (x_req x) (x_opts x) (x_random x) (x_trace x)
           (run w (call_of <$> take i xs))).2 = p
  ∧ handleResponse (wire (x_response x)) (x_handler_trace x) before
    = (Throw TypeError, before)
  ∧ promises after !! p = Some Pending
  ∧ executors after !! x_id x
    = Some {| resolve := p; reject := p; fs := opt_fs (x_opts x) |}.
Proof.
  intros w p before after Hxs Hnd Hi He Hv.
  pose proof (lookup_lt_Some _ _ _ Hi) as Hlt.
  assert (length (take i xs) = i) as Hlen by (rewrite length_take; lia).
  split; [rewrite request_promise, calls_length, Hlen; done|].
  pose proof (null_response_stalls history (take i xs) (drop (S i) xs) x) as H.
  simpl in H. rewrite (take_drop_middle xs i x Hi), Hlen in H.
  by apply H.
Qed.

Lemma null_response_leaves_call_pending_witness :
  let after := run initial ((call_of <$> null_exchanges)
                            ++ reverse (answer_of <$> null_exchanges)) in
  Forall addressed null_exchanges
  ∧ NoDup (x_id <$> null_exchanges)
  ∧ promises after = [Pending; Fulfilled (Data (VNum (Int 42)))]
  ∧ promises after !! 0 = Some Pending
  ∧ executors after !! "9abcd" = Some {| resolve := 0; reject := 0; fs := Some 4 |}.
Proof.
  assert (Forall addressed null_exchanges) as Hxs.
  { repeat constructor; simpl; by eexists. }
  assert (NoDup (x_id <$> null_exchanges)) as Hnd.
  { refine (bool_decide_unpack (NoDup (x_id <$> null_exchanges)) _). by vm_compute. }
  split; [exact Hxs|]. split; [exact Hnd|]. split; [reflexivity|].
  exact (proj2 (proj2 (null_response_leaves_call_pending [] null_exchanges 0 _
                         Hxs Hnd eq_refl eq_refl eq_refl))).
Defined.

(** C4, at the input where the code departs from the claim: a successful
    response whose identifier has a record and whose value is [null].
    [isFileData] finds [typeof null == 'object'] and goes on to
    ['fd' in null]: [handleResponse] throws a [TypeError], the promise
    is not resolved and the record stays in the table.  A successful
    response carrying any other value resolves the promise as the claim
    says ([handleResponse_success]), and an error response carrying an
    object with a [stack] rejects it ([handleResponse_error]). *)
Theorem null_value_throws (w : World) (ex : Executor) (sc i m st trace : string) :
  let r := {| scope := sc; id := i; method := m; stack_trail := st;
              error := false; value_of := VNull |} in
  handleResponse (wire r) trace (executors_set i ex w)
  = (Throw TypeError, executors_set i ex w).
Proof.
  intros r. unfold handleResponse. rewrite isMessage_wire, fields_wire.
  simpl. by rewrite lookup_insert_eq.
Qed.

(** C5, as stated, fails: two calls whose draws differ; the identifier of
    the second is already in the table when its record is registered,
    and registering it replaces the record of the first call. *)
Lemma drawn_id_in_use :
  let w := step initial sample_call in
  "0.123456789abcd" ≠ "0.fedcba989abcd"
  ∧ executors w !! request_id "0.fedcba989abcd"
    = Some {| resolve := 0; reject := 0; fs := Some 4 |}
  ∧ executors (request ∅ sample_options "0.fedcba989abcd" "Error: at caller" w).1
    = {[ "9abcd" := {| resolve := 1; reject := 1; fs := Some 4 |} ]}.
Proof. split; [discriminate|]. split; reflexivity. Qed.

(** C5, amended.  The identifier of a call is the text of the random draw
    without its first ten characters, whatever the table holds; the
    record of the call, which names the new promise, is stored under that
    identifier: added when the identifier is free, put in the place of
    the record in use otherwise. *)
Theorem request_registers_drawn_id w req opts random trace :
  let w1 := (request req opts random trace w).1 in
  let p := (request req opts random trace w).2 in
  request_id random = slice 10 random
  ∧ p = length (promises w)
  ∧ executors w1
    = <[request_id random := {| resolve := p; reject := p; fs := opt_fs opts |}]>
        (executors w).
Proof.
  simpl. rewrite request_promise. split; [done|]. split; [done|].
  unfold request. destruct (port opts); simpl; by rewrite ?settle_executors.
Qed.

(** C6, as stated, fails: a response whose identifier has no record is
    handed to the listener [attach] builds around [handleResponse], as it
    is on a port in the style of an event emitter and wrapped in an event
    on a port in the style of an event target.  The [EIO] error thrown by
    [handleResponse] is caught by nothing: the call of the listener ends
    with that error, which goes to whoever dispatched the message. *)
Lemma unknown_id_leaves_listener :
  let w := step initial sample_call in
  let received := wire (sample_response "0000" VUndefined) in
  let l := {| fn := 0; handler := 7 |} in
  let e := Failure {| errno := EIO; message := "Invalid RPC id:0000";
                      stack := "ApiError at remote" |} in
  executors w !! "0000" = None
  ∧ attach emitter_port 7 0 = Normal (on l emitter_port)
  ∧ listener_run l (λ m, handleResponse m "ApiError") received w = (Throw e, w)
  ∧ attach target_port 7 0 = Normal (addEventListener l target_port)
  ∧ listener_run l (λ m, handleResponse m "ApiError") (MessageEvent received) w
    = (Throw e, w).
Proof. repeat split; reflexivity. Qed.

(** C6, amended.  A tagged response whose identifier has no record makes
    [handleResponse] throw an [EIO] error whose message names the
    identifier and whose stack ends with the stack of the envelope; the
    table, the promises and the timers are left as they were.  The
    message is not dropped in silence, and the error is not caught
    either: the listener [attach] builds around [handleResponse] ends
    with that same error, whether the port hands it the response itself
    or an event that holds it. *)
Theorem unknown_id_throws (w : World) (r : Response) (trace : string) (l : Listener) :
  executors w !! id r = None →
  let e := Failure {| errno := EIO; message := "Invalid RPC id:" +:+ id r;
                      stack := trace +:+ stack_trail r |} in
  handleResponse (wire r) trace w = (Throw e, w)
  ∧ listener_run l (λ m, handleResponse m trace) (wire r) w = (Throw e, w)
  ∧ listener_run l (λ m, handleResponse m trace) (MessageEvent (wire r)) w
    = (Throw e, w).
Proof.
  intros Hex e.
  assert (handleResponse (wire r) trace w = (Throw e, w)) as H.
  { unfold handleResponse. rewrite isMessage_wire, fields_wire. simpl.
    by rewrite Hex. }
  split; [done|]. unfold listener_run.
  rewrite listener_call_event.
  assert (listener_call l (wire r) = Normal (handler l, wire r)) as -> by reflexivity.
  by rewrite H.
Qed.

Lemma unknown_id_throws_witness :
  executors (step initial sample_call) !! id (sample_response "0000" VUndefined) = None
  ∧ handleResponse (wire (sample_response "0000" VUndefined)) "ApiError"
      (step initial sample_call)
    = (Throw (Failure {| errno := EIO; message := "Invalid RPC id:0000";
                         stack := "ApiError at remote" |}),
       step initial sample_call).
Proof.
  split; [reflexivity|].
  exact (proj1 (unknown_id_throws (step initial sample_call)
                  (sample_response "0000" VUndefined) "ApiError"
                  {| fn := 0; handler := 7 |} eq_refl)).
Defined.

(** C7, at the input where the code departs from the claim: [null].
    [isMessage] finds [typeof null == 'object'] and goes on to
    ['_zenfs' in null]: [handleResponse] throws a [TypeError].  Every
    other value without the tag is ignored ([untagged_ignored]). *)
Theorem null_message_throws (trace : string) (w : World) :
  handleResponse VNull trace w = (Throw TypeError, w).
Proof. reflexivity. Qed.

(** C8, as stated, fails: on a port whose only way to subscribe is the
    [onmessage] slot, [attach] throws and subscribes nothing. *)
Lemma attach_slot_only_throws :
  "onmessage" ∈ members slot_port
  ∧ attach slot_port 7 0 = Throw TypeError
  ∧ dispatch (wire (sample_response "9abcd" VUndefined)) slot_port = [].
Proof. split; [by vm_compute|]. split; reflexivity. Qed.

(** C8, amended.  On a port that has a member [on], [attach] registers
    its listener through [on]; an object delivered on the port reaches the
    handler as its [data] field when it has one and as it is otherwise.
    On a port without [on] that has [addEventListener], [attach]
    registers its listener through it, and the handler receives the
    [data] field of the event, that is the value delivered. *)
Theorem attach_subscribes (port : Port) (h : nat) (f : FunRef) :
  "on" ∈ members port ∨ "addEventListener" ∈ members port →
  allocated f port →
  if bool_decide ("on" ∈ members port) then
    attach port h f = Normal (on {| fn := f; handler := h |} port)
    ∧ ∀ props, Normal (h, default (VObj props) (props !! "data"))
               ∈ dispatch (VObj props) (on {| fn := f; handler := h |} port)
  else
    attach port h f = Normal (addEventListener {| fn := f; handler := h |} port)
    ∧ ∀ m, Normal (h, m) ∈ dispatch m (addEventListener {| fn := f; handler := h |} port).
Proof.
  intros Hm [_ Hfresh]. apply allocated_fresh in Hfresh.
  unfold attach. case_bool_decide as Hon; unfold invoke.
  - rewrite bool_decide_eq_true_2 by done. simpl. split; [done|].
    intros props. unfold dispatch. simpl. rewrite fmap_app. simpl.
    rewrite listener_call_object. simpl. clear Hm. set_solver.
  - destruct Hm as [Hm'|Hm']; [contradiction|].
    rewrite bool_decide_eq_true_2 by done. simpl. split; [done|].
    intros m. unfold dispatch, addEventListener. simpl.
    rewrite bool_decide_eq_false_2 by done. rewrite fmap_app. simpl. set_solver.
Qed.

Lemma attach_subscribes_witness :
  ("on" ∈ members emitter_port ∨ "addEventListener" ∈ members emitter_port)
  ∧ allocated 0 emitter_port
  ∧ attach emitter_port 7 0 = Normal (on {| fn := 0; handler := 7 |} emitter_port)
  ∧ ("on" ∈ members target_port ∨ "addEventListener" ∈ members target_port)
  ∧ allocated 0 target_port
  ∧ attach target_port 7 0
    = Normal (addEventListener {| fn := 0; handler := 7 |} target_port).
Proof.
  assert ("on" ∈ members emitter_port) as Hon by (by vm_compute).
  assert ("addEventListener" ∈ members target_port) as Hadd by (by vm_compute).
  assert (allocated 0 emitter_port) as He by (split; constructor).
  assert (allocated 0 target_port) as Ht by (split; constructor).
  split; [by left|]. split; [exact He|].
  split; [exact (proj1 (attach_subscribes emitter_port 7 0 (or_introl Hon) He))|].
  split; [by right|]. split; [exact Ht|].
  exact (proj1 (attach_subscribes target_port 7 0 (or_intror Hadd) Ht)).
Defined.

(** C9, at an input where the code departs from the claim: a port in the
    style of an event emitter, [attach] then [detach] with the same
    handler.  [detach] passes [off] a function object created on the
    spot, not the one [attach] registered: the listener stays, and a
    message delivered afterwards still reaches the handler. *)
Theorem detach_leaves_handler_subscribed (h : nat) (f : FunRef) (props : gmap string value) :
  let subscribed := on {| fn := f; handler := h |} emitter_port in
  attach emitter_port h f = Normal subscribed
  ∧ detach subscribed h (S f) = Normal subscribed
  ∧ dispatch (VObj props) subscribed
    = [Normal (h, default (VObj props) (props !! "data"))].
Proof.
  intros subscribed. split; [reflexivity|]. split.
  - apply detach_removes_nothing.
    + split; simpl; repeat constructor.
    + left. by vm_compute.
  - unfold dispatch. simpl. by rewrite listener_call_object.
Qed.

(** * Further properties of the engine *)

(** X1.  Whenever [handleResponse] throws, whatever it was given, it has
    changed nothing: no promise is settled and no record is removed
    before the exception leaves. *)
Theorem handleResponse_throw_keeps_world (response : value) (trace : string)
    (w : World) (x : payload) :
  (handleResponse response trace w).1 = Throw x →
  (handleResponse response trace w).2 = w.
Proof.
  unfold handleResponse.
  destruct (isMessage response) as [[|]|] eqn:Hm; [|done..].
  destruct (isMessage_object _ Hm) as [rprops ->].
  destruct (fields (VObj rprops)) as [[[[i v] e] stk]|]; [|done].
  destruct (executors_get i w) as [ex|]; [|done].
  destruct (truthy e).
  - destruct (append_stack v stk) as [e'|]; [|done]. simpl. discriminate.
  - destruct (isFileData v) as [[|]|]; [| |done].
    + destruct (new_PortFile (fs ex) v) as [f|]; [|done]. simpl. discriminate.
    + simpl. discriminate.
Qed.

Lemma handleResponse_throw_keeps_world_witness :
  (handleResponse VNull "trace" (step initial sample_call)).1 = Throw TypeError
  ∧ (handleResponse VNull "trace" (step initial sample_call)).2
    = step initial sample_call.
Proof.
  split; [reflexivity|].
  exact (handleResponse_throw_keeps_world VNull "trace" (step initial sample_call)
           TypeError eq_refl).
Defined.

(** X2.  Every value other than [null] that is not an object with a truthy
    [_zenfs] is ignored: [handleResponse] returns [undefined], and the
    engine goes on as if the value had not arrived. *)
Theorem untagged_message_ignored (v : value) (trace : string) (w : World) :
  v ≠ VNull → tagged v = false →
  handleResponse v trace w = (Normal VUndefined, w)
  ∧ ∀ es, run w (Deliver v trace :: es) = run w es.
Proof.
  intros Hv Ht. pose proof (untagged_ignored v trace w Hv Ht) as H.
  split; [done|]. intros es. simpl. by rewrite H.
Qed.

Lemma untagged_message_ignored_witness :
  VObj {[ "_zenfs" := VNum (Int 0); "id" := VStr "9abcd" ]} ≠ VNull
  ∧ tagged (VObj {[ "_zenfs" := VNum (Int 0); "id" := VStr "9abcd" ]}) = false
  ∧ handleResponse (VObj {[ "_zenfs" := VNum (Int 0); "id" := VStr "9abcd" ]})
      "trace" (step initial sample_call)
    = (Normal VUndefined, step initial sample_call).
Proof.
  assert (VObj {[ "_zenfs" := VNum (Int 0); "id" := VStr "9abcd" ]} ≠ VNull) as Hv
    by discriminate.
  split; [exact Hv|]. split; [reflexivity|].
  exact (proj1 (untagged_message_ignored _ "trace" (step initial sample_call)
                  Hv eq_refl)).
Defined.

(** X3.  An error response whose identifier has a record with a pending
    promise, and whose value is an object with a string [stack]:
    [handleResponse] returns the response with that object updated,
    rejects the promise with the object, its stack followed by the stack
    of the envelope, and removes the record, and only that record. *)
Theorem error_response_rejects_caller (r : Response) (trace : string) (w : World)
    (ex : Executor) (props : gmap string value) (s : string) :
  executors w !! id r = Some ex →
  promises w !! reject ex = Some Pending →
  carries_error r props s →
  let w' := (handleResponse (wire r) trace w).2 in
  (handleResponse (wire r) trace w).1 = set "value" (remote_error r props s) (wire r)
  ∧ promises w' !! reject ex = Some (Rejected (Data (remote_error r props s)))
  ∧ executors w' = delete (id r) (executors w).
Proof.
  intros Hex Hp (He & Hv & Hs) w'. unfold w'.
  rewrite (handleResponse_error r trace w ex props s Hex He Hv Hs). simpl.
  split; [done|]. split; [by apply settle_pending|]. by rewrite settle_executors.
Qed.

Lemma error_response_rejects_caller_witness :
  executors (step initial sample_call) !! id sample_failure
    = Some {| resolve := 0; reject := 0; fs := Some 4 |}
  ∧ promises (step initial sample_call) !! 0 = Some Pending
  ∧ carries_error sample_failure
      {[ "code" := VStr "ENOENT"; "stack" := VStr "Error: no entry" ]} "Error: no entry"
  ∧ promises (handleResponse (wire sample_failure) "trace" (step initial sample_call)).2
      !! 0
    = Some (Rejected (Data (VObj {[ "code" := VStr "ENOENT";
                                    "stack" := VStr "Error: no entry at remote" ]}))).
Proof.
  assert (carries_error sample_failure
            {[ "code" := VStr "ENOENT"; "stack" := VStr "Error: no entry" ]}
            "Error: no entry") as Hc by (repeat split; reflexivity).
  split; [reflexivity|]. split; [reflexivity|]. split; [exact Hc|].
  exact (proj1 (proj2 (error_response_rejects_caller sample_failure "trace"
                         (step initial sample_call) _ _ _ eq_refl eq_refl Hc))).
Defined.

(** X4.  A successful response whose identifier has a record with a
    pending promise, and whose value is not [null]: [handleResponse]
    returns the response, resolves the promise with the value, or with
    the proxy built from it when it has the fields of a descriptor, and
    removes the record, and only that record. *)
Theorem success_response_resolves_caller (r : Response) (trace : string) (w : World)
    (ex : Executor) :
  executors w !! id r = Some ex →
  promises w !! resolve ex = Some Pending →
  error r = false → value_of r ≠ VNull →
  let w' := (handleResponse (wire r) trace w).2 in
  (handleResponse (wire r) trace w).1 = Normal (wire r)
  ∧ promises w' !! resolve ex = Some (Fulfilled (resolution (fs ex) (value_of r)))
  ∧ executors w' = delete (id r) (executors w).
Proof.
  intros Hex Hp He Hv w'. unfold w'.
  rewrite (handleResponse_success r trace w ex Hex He Hv). simpl.
  split; [done|]. split; [by apply settle_pending|]. by rewrite settle_executors.
Qed.

Lemma success_response_resolves_caller_witness :
  executors (step initial sample_call) !! id (sample_response "9abcd" (VStr "ok"))
    = Some {| resolve := 0; reject := 0; fs := Some 4 |}
  ∧ promises (step initial sample_call) !! 0 = Some Pending
  ∧ error (sample_response "9abcd" (VStr "ok")) = false
  ∧ value_of (sample_response "9abcd" (VStr "ok")) ≠ VNull
  ∧ promises (handleResponse (wire (sample_response "9abcd" (VStr "ok"))) "trace"
                (step initial sample_call)).2 !! 0
    = Some (Fulfilled (Data (VStr "ok"))).
Proof.
  assert (value_of (sample_response "9abcd" (VStr "ok")) ≠ VNull) as Hv by discriminate.
  split; [reflexivity|]. split; [reflexivity|]. split; [reflexivity|]. split; [exact Hv|].
  exact (proj1 (proj2 (success_response_resolves_caller
                         (sample_response "9abcd" (VStr "ok")) "trace"
                         (step initial sample_call) _ eq_refl eq_refl eq_refl Hv))).
Defined.

(** X5.  An error response whose value is not an object (a message sent as
    a string, [undefined], [null], a number) makes [handleResponse] throw
    a [TypeError] on [e.stack += stack]: the caller is not rejected and
    the record stays in the table. *)
Theorem error_response_without_object_throws (r : Response) (trace : string)
    (w : World) :
  is_Some (executors w !! id r) →
  error r = true → (∀ props, value_of r ≠ VObj props) →
  handleResponse (wire r) trace w = (Throw TypeError, w).
Proof.
  intros [ex Hex] He Hv. unfold handleResponse.
  rewrite isMessage_wire, fields_wire. simpl. rewrite Hex, He. simpl.
  destruct (value_of r) as [| | | | |props]; try done. by destruct (Hv props).
Qed.

Lemma error_response_without_object_throws_witness :
  is_Some (executors (step initial sample_call) !! "9abcd")
  ∧ handleResponse
      (wire {| scope := "fs"; id := "9abcd"; method := "stat"; stack_trail := "";
               error := true; value_of := VStr "ENOENT: no such file" |})
      "trace" (step initial sample_call)
    = (Throw TypeError, step initial sample_call).
Proof.
  assert (is_Some (executors (step initial sample_call) !! "9abcd")) as Hex
    by (by eexists).
  split; [exact Hex|].
  refine (error_response_without_object_throws
            {| scope := "fs"; id := "9abcd"; method := "stat"; stack_trail := "";
               error := true; value_of := VStr "ENOENT: no such file" |}
            "trace" (step initial sample_call) Hex eq_refl _).
  intros props. discriminate.
Defined.

(** X6.  A response is consumed once: after a successful response has been
    handled, a second response bearing the same identifier is refused
    with the [EIO] error naming the identifier, and changes nothing. *)
Theorem duplicate_response_is_unknown (r r' : Response) (trace trace' : string)
    (w : World) :
  is_Some (executors w !! id r) →
  error r = false → value_of r ≠ VNull → id r' = id r →
  let w' := (handleResponse (wire r) trace w).2 in
  (handleResponse (wire r) trace w).1 = Normal (wire r)
  ∧ handleResponse (wire r') trace' w'
    = (Throw (Failure {| errno := EIO; message := "Invalid RPC id:" +:+ id r;
                         stack := trace' +:+ stack_trail r' |}), w').
Proof.
  intros [ex Hex] He Hv Hid w'. unfold w'.
  rewrite (handleResponse_success r trace w ex Hex He Hv). simpl.
  split; [done|]. unfold handleResponse.
  rewrite isMessage_wire, fields_wire. simpl.
  rewrite settle_executors, Hid, lookup_delete_eq. done.
Qed.

Lemma duplicate_response_is_unknown_witness :
  is_Some (executors (step initial sample_call) !! id (sample_response "9abcd" (VStr "ok")))
  ∧ error (sample_response "9abcd" (VStr "ok")) = false
  ∧ value_of (sample_response "9abcd" (VStr "ok")) ≠ VNull
  ∧ (handleResponse (wire (sample_response "9abcd" (VStr "again"))) "ApiError"
       (handleResponse (wire (sample_response "9abcd" (VStr "ok"))) "trace"
          (step initial sample_call)).2).1
    = Throw (Failure {| errno := EIO; message := "Invalid RPC id:9abcd";
                        stack := "ApiError at remote" |}).
Proof.
  assert (is_Some (executors (step initial sample_call)
                     !! id (sample_response "9abcd" (VStr "ok")))) as Hex
    by (by eexists).
  assert (value_of (sample_response "9abcd" (VStr "ok")) ≠ VNull) as Hv by discriminate.
  split; [exact Hex|]. split; [reflexivity|]. split; [exact Hv|].
  exact (f_equal fst
           (proj2 (duplicate_response_is_unknown
                     (sample_response "9abcd" (VStr "ok"))
                     (sample_response "9abcd" (VStr "again")) "trace" "ApiError"
                     (step initial sample_call) Hex eq_refl Hv eq_refl))).
Defined.

(** X7.  The round trip of a call.  A call is issued on a port in a world
    reached from the initial one; other events follow, none of which
    answers the call, lets its timer come due or draws its identifier
    again; then a successful response bearing the identifier arrives, with
    a value other than [null].  The promise handed to the caller is
    resolved with what the response carries, and stays so whatever
    happens next, the expiry of its timer included. *)
Theorem answered_call_is_fulfilled (history : list event) req opts prt random trace
    (es es' : list event) (r : Response) (tr : string) :
  port opts = Some prt →
  Forall (λ e, ¬ answers (request_id random) e
               ∧ ¬ expires (length (timers (run initial history))) e
               ∧ ¬ draws (request_id random) e) es →
  id r = request_id random → error r = false → value_of r ≠ VNull →
  let w := run initial history in
  let w1 := (request req opts random trace w).1 in
  let p := (request req opts random trace w).2 in
  promises (run w1 (es ++ Deliver (wire r) tr :: es')) !! p
  = Some (Fulfilled (resolution (opt_fs opts) (value_of r))).
Proof.
  intros Hp Hes Hid He Hv w w1 p. subst w w1 p. rewrite request_promise.
  destruct (request_undisturbed history req opts prt random trace es Hp Hes)
    as [Hex Hpend].
  rewrite run_app. simpl. apply run_settled; [|done].
  rewrite <- Hid in Hex.
  rewrite (handleResponse_success r tr _ _ Hex He Hv). simpl.
  by apply settle_pending.
Qed.

Lemma answered_call_is_fulfilled_witness :
  port sample_options = Some 0
  ∧ Forall (λ e, ¬ answers (request_id "0.123456789abcd") e
                 ∧ ¬ expires (length (timers (run initial []))) e
                 ∧ ¬ draws (request_id "0.123456789abcd") e)
      [Call ∅ sample_options "0.fedcba9876543" "Error: at caller"]
  ∧ value_of (sample_response "9abcd" (VNum (Int 7))) ≠ VNull
  ∧ promises (run initial
                [sample_call;
                 Call ∅ sample_options "0.fedcba9876543" "Error: at caller";
                 Deliver (wire (sample_response "9abcd" (VNum (Int 7)))) "trace";
                 Expire 0 "ApiError"]) !! 0
    = Some (Fulfilled (Data (VNum (Int 7)))).
Proof.
  assert (Forall (λ e, ¬ answers (request_id "0.123456789abcd") e
                       ∧ ¬ expires (length (timers (run initial []))) e
                       ∧ ¬ draws (request_id "0.123456789abcd") e)
            [Call ∅ sample_options "0.fedcba9876543" "Error: at caller"]) as Hes.
  { constructor; [|constructor]. split; [intros []|]. split; [intros []|].
    simpl. discriminate. }
  assert (value_of (sample_response "9abcd" (VNum (Int 7))) ≠ VNull) as Hv
    by discriminate.
  split; [reflexivity|]. split; [exact Hes|]. split; [exact Hv|].
  exact (answered_call_is_fulfilled [] ∅ sample_options 0 "0.123456789abcd"
           "Error: at caller" _ [Expire 0 "ApiError"]
           (sample_response "9abcd" (VNum (Int 7))) "trace"
           eq_refl Hes eq_refl eq_refl Hv).
Defined.

(** X8.  The same round trip for a failed operation: when the response is
    an error response carrying an object with a string [stack], the
    promise handed to the caller is rejected with that object, the stack
    of the envelope appended, and stays so. *)
Theorem failed_call_is_rejected (history : list event) req opts prt random trace
    (es es' : list event) (r : Response) (tr : string) props s :
  port opts = Some prt →
  Forall (λ e, ¬ answers (request_id random) e
               ∧ ¬ expires (length (timers (run initial history))) e
               ∧ ¬ draws (request_id random) e) es →
  id r = request_id random → carries_error r props s →
  let w := run initial history in
  let w1 := (request req opts random trace w).1 in
  let p := (request req opts random trace w).2 in
  promises (run w1 (es ++ Deliver (wire r) tr :: es')) !! p
  = Some (Rejected (Data (remote_error r props s))).
Proof.
  intros Hp Hes Hid (He & Hv & Hs) w w1 p. subst w w1 p. rewrite request_promise.
  destruct (request_undisturbed history req opts prt random trace es Hp Hes)
    as [Hex Hpend].
  rewrite run_app. simpl. apply run_settled; [|done].
  rewrite <- Hid in Hex.
  rewrite (handleResponse_error r tr _ _ props s Hex He Hv Hs). simpl.
  by apply settle_pending.
Qed.

Lemma failed_call_is_rejected_witness :
  port sample_options = Some 0
  ∧ carries_error sample_failure
      {[ "code" := VStr "ENOENT"; "stack" := VStr "Error: no entry" ]} "Error: no entry"
  ∧ promises (run initial [sample_call; Deliver (wire sample_failure) "trace";
                           Expire 0 "ApiError"]) !! 0
    = Some (Rejected (Data (VObj {[ "code" := VStr "ENOENT";
                                    "stack" := VStr "Error: no entry at remote" ]}))).
Proof.
  assert (carries_error sample_failure
            {[ "code" := VStr "ENOENT"; "stack" := VStr "Error: no entry" ]}
            "Error: no entry") as Hc by (repeat split; reflexivity).
  split; [reflexivity|]. split; [exact Hc|].
  exact (failed_call_is_rejected [] ∅ sample_options 0 "0.123456789abcd"
           "Error: at caller" [] [Expire 0 "ApiError"] sample_failure "trace" _ _
           eq_refl (Forall_nil_2 _) eq_refl Hc).
Defined.

(** X9.  A response that arrives after the timeout is not refused: the
    record being still in the table, [handleResponse] returns normally
    instead of reporting an unknown identifier, removes the record at
    last, and leaves the promise rejected with the timeout error. *)
Theorem late_response_is_accepted (history : list event) req opts prt random trace
    (es es2 : list event) (r : Response) (tr tr' : string) :
  port opts = Some prt →
  Forall (λ e, ¬ answers (request_id random) e
               ∧ ¬ expires (length (timers (run initial history))) e
               ∧ ¬ draws (request_id random) e) es →
  Forall (λ e, ¬ answers (request_id random) e ∧ ¬ draws (request_id random) e) es2 →
  id r = request_id random → error r = false → value_of r ≠ VNull →
  let w := run initial history in
  let w1 := (request req opts random trace w).1 in
  let p := (request req opts random trace w).2 in
  let k := length (timers w) in
  let w3 := run w1 (es ++ Expire k tr :: es2) in
  (handleResponse (wire r) tr' w3).1 = Normal (wire r)
  ∧ executors (handleResponse (wire r) tr' w3).2 !! request_id random = None
  ∧ promises (handleResponse (wire r) tr' w3).2 !! p
    = Some (Rejected (Failure (timeout_error (request_id random)
                                 (request_stack trace) tr))).
Proof.
  intros Hp Hes Hes2 Hid He Hv w w1 p k w3. unfold p. rewrite request_promise.
  assert (Forall (λ e, ¬ answers (request_id random) e
                       ∧ ¬ expires (length (timers (run initial history))) e) es)
    as Hes' by (eapply Forall_impl; [exact Hes|]; simpl; tauto).
  pose proof (request_then_run history req opts prt random trace es Hp Hes') as Hw.
  destruct (request_undisturbed history req opts prt random trace es Hp Hes)
    as [Hex _].
  assert (executors w3 !! request_id random
          = Some {| resolve := length (promises w); reject := length (promises w);
                    fs := opt_fs opts |}) as Hex3.
  { unfold w3. rewrite run_app. simpl. apply run_keeps_own_record; [|done].
    destruct (fire_effect k tr (run w1 es)) as [->|(t&_&_&->)]; [done|].
    by rewrite settle_executors. }
  assert (promises w3 !! length (promises w)
          = Some (Rejected (Failure (timeout_error (request_id random)
                                       (request_stack trace) tr)))) as Hp3.
  { unfold w3. rewrite run_app. simpl. apply run_settled; [|done].
    by apply (fire_waiting _ _ _ _ _ tr Hw). }
  rewrite <- Hid in Hex3.
  rewrite (handleResponse_success r tr' w3 _ Hex3 He Hv). simpl.
  split; [done|]. split.
  - by rewrite settle_executors, <- Hid, lookup_delete_eq.
  - by apply settle_settled.
Qed.

Lemma late_response_is_accepted_witness :
  port sample_options = Some 0
  ∧ value_of (sample_response "9abcd" (VStr "late")) ≠ VNull
  ∧ (handleResponse (wire (sample_response "9abcd" (VStr "late"))) "trace"
       (run initial [sample_call; Expire 0 "ApiError"])).1
    = Normal (wire (sample_response "9abcd" (VStr "late"))).
Proof.
  assert (value_of (sample_response "9abcd" (VStr "late")) ≠ VNull) as Hv
    by discriminate.
  split; [reflexivity|]. split; [exact Hv|].
  exact (proj1 (late_response_is_accepted [] ∅ sample_options 0 "0.123456789abcd"
                  "Error: at caller" [] []
                  (sample_response "9abcd" (VStr "late")) "ApiError" "trace"
                  eq_refl (Forall_nil_2 _) (Forall_nil_2 _) eq_refl eq_refl Hv)).
Defined.

(** X10.  Two outstanding calls that drew the same identifier: the
    response bearing it resolves the promise of the later call, whose
    record replaced the earlier one; the promise of the earlier call
    stays pending, and no record is left for it. *)
Theorem colliding_call_takes_response (w : World) req1 opts1 prt1 random1 trace1
    req2 opts2 prt2 random2 trace2 (r : Response) (tr : string) :
  port opts1 = Some prt1 → port opts2 = Some prt2 →
  request_id random2 = request_id random1 →
  id r = request_id random1 → error r = false → value_of r ≠ VNull →
  let w1 := (request req1 opts1 random1 trace1 w).1 in
  let p1 := (request req1 opts1 random1 trace1 w).2 in
  let w2 := (request req2 opts2 random2 trace2 w1).1 in
  let p2 := (request req2 opts2 random2 trace2 w1).2 in
  let w3 := (handleResponse (wire r) tr w2).2 in
  p1 ≠ p2
  ∧ promises w3 !! p2 = Some (Fulfilled (resolution (opt_fs opts2) (value_of r)))
  ∧ promises w3 !! p1 = Some Pending
  ∧ executors w3 !! request_id random1 = None.
Proof.
  intros Hp1 Hp2 Hcol Hid He Hv w1 p1 w2 p2 w3. subst w1 p1 w2 p2 w3.
  rewrite !request_promise.
  assert (length (promises (request req1 opts1 random1 trace1 w).1)
          = S (length (promises w))) as Hlen.
  { unfold request. rewrite Hp1. simpl. rewrite length_app. simpl. lia. }
  rewrite Hlen.
  assert (executors (request req2 opts2 random2 trace2
                       (request req1 opts1 random1 trace1 w).1).1 !! id r
          = Some {| resolve := S (length (promises w)); reject := S (length (promises w));
                    fs := opt_fs opts2 |}) as Hex.
  { unfold request at 1. rewrite Hp2. simpl. rewrite Hlen, Hcol, Hid.
    by rewrite lookup_insert_eq. }
  rewrite (handleResponse_success r tr _ _ Hex He Hv). simpl.
  assert (promises (request req2 opts2 random2 trace2
                      (request req1 opts1 random1 trace1 w).1).1
          = promises w ++ [Pending; Pending]) as Hps.
  { unfold request. rewrite Hp1, Hp2. simpl. by rewrite <- app_assoc. }
  split; [lia|]. split; [|split].
  - apply settle_pending. rewrite Hps.
    rewrite lookup_app_r by lia. by replace (S (length (promises w)) - length (promises w)) with 1 by lia.
  - rewrite settle_other by lia. rewrite Hps.
    rewrite lookup_app_r by lia. by rewrite Nat.sub_diag.
  - by rewrite settle_executors, Hid, lookup_delete_eq.
Qed.

Lemma colliding_call_takes_response_witness :
  port sample_options = Some 0
  ∧ request_id "0.fedcba989abcd" = request_id "0.123456789abcd"
  ∧ value_of (sample_response "9abcd" (VStr "for the first")) ≠ VNull
  ∧ promises (run initial
                [sample_call;
                 Call ∅ {| port := Some 0; timeout := None; opt_fs := Some 5 |}
                      "0.fedcba989abcd" "Error: at caller";
                 Deliver (wire (sample_response "9abcd" (VStr "for the first"))) "trace"])
      !! 1
    = Some (Fulfilled (Data (VStr "for the first")))
  ∧ promises (run initial
                [sample_call;
                 Call ∅ {| port := Some 0; timeout := None; opt_fs := Some 5 |}
                      "0.fedcba989abcd" "Error: at caller";
                 Deliver (wire (sample_response "9abcd" (VStr "for the first"))) "trace"])
      !! 0
    = Some Pending.
Proof.
  assert (value_of (sample_response "9abcd" (VStr "for the first")) ≠ VNull) as Hv
    by discriminate.
  split; [reflexivity|]. split; [reflexivity|]. split; [exact Hv|].
  pose proof (colliding_call_takes_response initial ∅ sample_options 0
                "0.123456789abcd" "Error: at caller"
                ∅ {| port := Some 0; timeout := None; opt_fs := Some 5 |} 0
                "0.fedcba989abcd" "Error: at caller"
                (sample_response "9abcd" (VStr "for the first")) "trace"
                eq_refl eq_refl eq_refl eq_refl eq_refl Hv) as H.
  split; [exact (proj1 (proj2 H))|exact (proj1 (proj2 (proj2 H)))].
Defined.

(** X11.  A call made without a port: the promise is rejected at once with
    the [TypeError] of [port.postMessage], nothing is posted and no timer
    is armed, but the record has been registered and stays in the
    table. *)
Theorem request_without_port (w : World) req opts random trace :
  port opts = None →
  let w1 := (request req opts random trace w).1 in
  let p := (request req opts random trace w).2 in
  promises w1 !! p = Some (Rejected TypeError)
  ∧ outbox w1 = outbox w
  ∧ timers w1 = timers w
  ∧ executors w1 !! request_id random
    = Some {| resolve := p; reject := p; fs := opt_fs opts |}.
Proof.
  intros Hp w1 p. subst w1 p. rewrite request_promise.
  unfold request. rewrite Hp. simpl.
  split; [|split; [|split]].
  - apply settle_pending. simpl. by apply list_lookup_middle.
  - unfold settle. simpl. by repeat case_match.
  - by rewrite settle_timers.
  - rewrite settle_executors. simpl. by rewrite lookup_insert_eq.
Qed.

Lemma request_without_port_witness :
  port {| port := None; timeout := Some 50%Z; opt_fs := None |} = None
  ∧ promises (request ∅ {| port := None; timeout := Some 50%Z; opt_fs := None |}
                "0.123456789abcd" "Error: at caller" initial).1 !! 0
    = Some (Rejected TypeError).
Proof.
  split; [reflexivity|].
  exact (proj1 (request_without_port initial ∅
                  {| port := None; timeout := Some 50%Z; opt_fs := None |}
                  "0.123456789abcd" "Error: at caller" eq_refl)).
Defined.

(** X12.  The envelope a call posts is a message of the protocol bearing
    the identifier of the call and the captured stack, whatever the
    request object contained under [_zenfs], [id] and [stack]; every
    other property of the request is passed on unchanged. *)
Theorem request_envelope (w : World) req opts prt random trace :
  port opts = Some prt →
  ∃ m, outbox (request req opts random trace w).1 = outbox w ++ [(prt, VObj m)]
    ∧ bears (request_id random) (VObj m)
    ∧ get "stack" (VObj m) = Normal (VStr (request_stack trace))
    ∧ ∀ k, k ∉ ["_zenfs"; "id"; "stack"] → m !! k = req !! k.
Proof.
  intros Hp. rewrite request_posts, Hp. eexists. split; [done|].
  split; [|split].
  - split.
    + unfold isMessage. simpl.
      rewrite lookup_insert_ne by done. rewrite lookup_insert_ne by done.
      by rewrite lookup_insert_eq.
    + simpl. rewrite lookup_insert_ne by done. by rewrite lookup_insert_eq.
  - simpl. by rewrite lookup_insert_eq.
  - intros k Hk. rewrite !not_elem_of_cons in Hk. destruct Hk as (? & ? & ? & _).
    by rewrite !lookup_insert_ne.
Qed.

Lemma request_envelope_witness :
  port sample_options = Some 0
  ∧ ∃ m, outbox (request {[ "id" := VStr "mine"; "method" := VStr "stat" ]}
                   sample_options "0.123456789abcd" "Error: at caller" initial).1
         = outbox initial ++ [(0, VObj m)]
       ∧ bears (request_id "0.123456789abcd") (VObj m).
Proof.
  split; [reflexivity|].
  destruct (request_envelope initial {[ "id" := VStr "mine"; "method" := VStr "stat" ]}
              sample_options 0 "0.123456789abcd" "Error: at caller" eq_refl)
    as (m & Hout & Hb & _).
  exists m. by split.
Defined.

Lemma fire_executors k trace w : executors (fire k trace w) = executors w.
Proof.
  destruct (fire_effect k trace w) as [->|(t&_&_&->)]; [done|].
  by rewrite settle_executors.
Qed.

Lemma request_executors req opts random trace w :
  executors (request req opts random trace w).1
  = <[request_id random := {| resolve := length (promises w);
                              reject := length (promises w); fs := opt_fs opts |}]>
      (executors w).
Proof. unfold request. destruct (port opts); simpl; by rewrite ?settle_executors. Qed.

Lemma calls_size w xs :
  NoDup (x_id <$> xs) → Forall (λ x, executors w !! x_id x = None) xs →
  size (executors (run w (call_of <$> xs))) = size (executors w) + length xs.
Proof.
  revert w. induction xs as [|x xs IH]; intros w Hnd Hfresh; [simpl; lia|].
  rewrite fmap_cons in Hnd. apply NoDup_cons in Hnd as [Hx Hnd].
  apply Forall_cons in Hfresh as [Hxw Hfresh]. simpl.
  rewrite IH; [|done|].
  - rewrite request_executors, map_size_insert_None by done. lia.
  - apply Forall_forall. intros y Hy. rewrite request_executors.
    rewrite lookup_insert_ne.
    + by apply (proj1 (Forall_forall _ _) Hfresh).
    + intros Heq. apply Hx. unfold x_id in *. rewrite Heq.
      by apply (list_elem_of_fmap_2 x_id).
Qed.

Lemma expiries_executors w (ks : list (nat * string)) :
  executors (run w ((λ kt, Expire kt.1 kt.2) <$> ks)) = executors w.
Proof.
  revert w. induction ks as [|[k tr] ks IH]; intros w; [done|].
  simpl. by rewrite IH, fire_executors.
Qed.

(** X13.  Calls that time out are never forgotten: after calls with
    pairwise distinct identifiers not in use, followed by any expiries
    of timers, the table holds one more record per call. *)
Theorem timed_out_calls_stay_registered (w : World) (xs : list Exchange)
    (ks : list (nat * string)) :
  NoDup (x_id <$> xs) → Forall (λ x, executors w !! x_id x = None) xs →
  size (executors (run w ((call_of <$> xs) ++ ((λ kt, Expire kt.1 kt.2) <$> ks))))
  = size (executors w) + length xs.
Proof.
  intros Hnd Hfresh. by rewrite run_app, expiries_executors, calls_size.
Qed.

Lemma timed_out_calls_stay_registered_witness :
  NoDup (x_id <$> sample_exchanges)
  ∧ Forall (λ x, executors initial !! x_id x = None) sample_exchanges
  ∧ size (executors (run initial ((call_of <$> sample_exchanges)
                                  ++ ((λ kt, Expire kt.1 kt.2)
                                        <$> [(0, "a"); (1, "b"); (2, "c"); (0, "d")]))))
    = 3.
Proof.
  assert (NoDup (x_id <$> sample_exchanges)) as Hnd.
  { refine (bool_decide_unpack (NoDup (x_id <$> sample_exchanges)) _). by vm_compute. }
  assert (Forall (λ x, executors initial !! x_id x = None) sample_exchanges) as Hf
    by (repeat constructor).
  split; [exact Hnd|]. split; [exact Hf|].
  exact (timed_out_calls_stay_registered initial sample_exchanges
           [(0, "a"); (1, "b"); (2, "c"); (0, "d")] Hnd Hf).
Defined.

(** X14.  Out-of-order delivery: calls with pairwise distinct identifiers
    whose successful responses are delivered in any order whatsoever end
    up resolved each with what its own response carries. *)
Theorem any_order_delivery (w : World) (xs ys : list Exchange) :
  Forall answered xs → NoDup (x_id <$> xs) → ys ≡ₚ xs →
  ∀ i x, xs !! i = Some x →
    promises (run w ((call_of <$> xs) ++ (answer_of <$> ys)))
      !! (length (promises w) + i)
    = Some (Fulfilled (resolution (opt_fs (x_opts x)) (value_of (x_response x)))).
Proof.
  intros Hxs Hnd Hperm i x Hi.
  pose proof (lookup_lt_Some _ _ _ Hi) as Hlt.
  rewrite run_app.
  set (w1 := run w (call_of <$> xs)).
  set (ps := seq (length (promises w)) (length xs)).
  assert (length xs = length ps) as Hlen by (unfold ps; by rewrite length_seq).
  assert (fst <$> zip xs ps = xs) as Hfst by (apply fst_zip; lia).
  assert (snd <$> zip xs ps = ps) as Hsnd by (apply snd_zip; lia).
  assert (∃ zs, ys = fst <$> zs ∧ zip xs ps ≡ₚ zs) as (zs & -> & Hzs).
  { rewrite <- Hfst in Hperm. exact (Permutation_map_inv fst (zip xs ps) Hperm). }
  assert ((λ xp : Exchange * nat, answer_of xp.1) <$> zs = answer_of <$> (fst <$> zs))
    as Hans by (by rewrite <- list_fmap_compose).
  assert ((λ xp : Exchange * nat, x_id xp.1) <$> zs ≡ₚ x_id <$> xs) as Hids.
  { rewrite <- Hzs. rewrite <- Hfst at 2. by rewrite <- list_fmap_compose. }
  pose proof (answers_fulfil w1 zs) as H.
  rewrite Hans in H.
  assert ((x, length (promises w) + i) ∈ zs) as Hin.
  { rewrite <- Hzs. apply list_elem_of_lookup. exists i.
    apply lookup_zip_with_Some. exists x, (length (promises w) + i).
    split; [done|]. split; [done|]. unfold ps. by apply lookup_seq. }
  refine (proj1 (Forall_forall _ _) (H _ _ _ _) _ Hin).
  - rewrite <- Hzs. apply Forall_forall. intros [x' p'] Hin'.
    simpl. eapply (proj1 (Forall_forall _ _)); [exact Hxs|].
    rewrite <- Hfst. by apply (list_elem_of_fmap_2 fst _ (x', p')).
  - by rewrite Hids.
  - rewrite <- Hzs, Hsnd. apply NoDup_seq.
  - rewrite <- Hzs. by apply calls_registered.
Qed.

Lemma any_order_delivery_witness :
  Forall answered sample_exchanges
  ∧ NoDup (x_id <$> sample_exchanges)
  ∧ [sample_exchange "0.0f0f0f0f0f0f1" (VNum (Int 42));
     sample_exchange "0.123456789abcd" (VStr "first");
     sample_exchange "0.fedcba9876543"
       (descriptor (VNum (Int 3)) (VStr "/a.txt") (VNum (Int 0)))]
    ≡ₚ sample_exchanges
  ∧ promises (run initial
                ((call_of <$> sample_exchanges)
                 ++ (answer_of <$>
                       [sample_exchange "0.0f0f0f0f0f0f1" (VNum (Int 42));
                        sample_exchange "0.123456789abcd" (VStr "first");
                        sample_exchange "0.fedcba9876543"
                          (descriptor (VNum (Int 3)) (VStr "/a.txt") (VNum (Int 0)))])))
      !! 2
    = Some (Fulfilled (Data (VNum (Int 42)))).
Proof.
  assert (Forall answered sample_exchanges) as Hxs.
  { repeat constructor; simpl; try (by eexists); discriminate. }
  assert (NoDup (x_id <$> sample_exchanges)) as Hnd.
  { refine (bool_decide_unpack (NoDup (x_id <$> sample_exchanges)) _). by vm_compute. }
  assert ([sample_exchange "0.0f0f0f0f0f0f1" (VNum (Int 42));
           sample_exchange "0.123456789abcd" (VStr "first");
           sample_exchange "0.fedcba9876543"
             (descriptor (VNum (Int 3)) (VStr "/a.txt") (VNum (Int 0)))]
          ≡ₚ sample_exchanges) as Hperm.
  { exact (Permutation_cons_append _ _). }
  split; [exact Hxs|]. split; [exact Hnd|]. split; [exact Hperm|].
  exact (any_order_delivery initial sample_exchanges _ Hxs Hnd Hperm 2 _ eq_refl).
Defined.

(** X15.  [detach] never unsubscribes anything: the function object it
    passes being new, it returns with the port as it was when the port
    has [off] or [removeEventListener], and throws a [TypeError]
    otherwise. *)
Theorem detach_never_unsubscribes (port : Port) (h : nat) (g : FunRef) :
  allocated g port →
  detach port h g
  = if bool_decide ("off" ∈ members port ∨ "removeEventListener" ∈ members port)
    then Normal port else Throw TypeError.
Proof.
  intros Hg. case_bool_decide as Hm.
  - by apply detach_removes_nothing.
  - unfold detach. case_bool_decide as Hoff; [tauto|].
    unfold invoke. rewrite bool_decide_eq_false_2; [done|tauto].
Qed.

Lemma detach_never_unsubscribes_witness :
  allocated 1 (on {| fn := 0; handler := 7 |} target_port)
  ∧ detach (on {| fn := 0; handler := 7 |} target_port) 7 1
    = Normal (on {| fn := 0; handler := 7 |} target_port).
Proof.
  assert (allocated 1 (on {| fn := 0; handler := 7 |} target_port)) as Ha.
  { split; simpl; repeat constructor. }
  split; [exact Ha|].
  exact (detach_never_unsubscribes (on {| fn := 0; handler := 7 |} target_port) 7 1 Ha).
Defined.

(** X16.  Attaching the same handler twice subscribes it twice: on a port
    with [on], every object delivered afterwards reaches the handler two
    times. *)
Theorem attach_twice_invokes_twice (port : Port) (h : nat) (f1 f2 : FunRef)
    (props : gmap string value) :
  "on" ∈ members port →
  ∃ p1 p2, attach port h f1 = Normal p1 ∧ attach p1 h f2 = Normal p2
    ∧ dispatch (VObj props) p2
      = ((λ l, listener_call l (VObj props)) <$> emitter port)
        ++ [Normal (h, default (VObj props) (props !! "data"));
            Normal (h, default (VObj props) (props !! "data"))]
        ++ ((λ l, listener_call l (MessageEvent (VObj props))) <$> event_target port).
Proof.
  intros Hon.
  exists (on {| fn := f1; handler := h |} port),
         (on {| fn := f2; handler := h |} (on {| fn := f1; handler := h |} port)).
  split; [|split].
  - unfold attach. rewrite bool_decide_eq_true_2 by done.
    unfold invoke. by rewrite bool_decide_eq_true_2.
  - unfold attach. simpl. rewrite bool_decide_eq_true_2 by done.
    unfold invoke. simpl. by rewrite bool_decide_eq_true_2.
  - unfold dispatch. simpl. rewrite !fmap_app. simpl.
    rewrite !listener_call_object. simpl. by rewrite <- !app_assoc.
Qed.

Lemma attach_twice_invokes_twice_witness :
  "on" ∈ members emitter_port
  ∧ ∃ p1 p2, attach emitter_port 7 0 = Normal p1 ∧ attach p1 7 1 = Normal p2
      ∧ dispatch (VObj ∅) p2 = [Normal (7, VObj ∅); Normal (7, VObj ∅)].
Proof.
  assert ("on" ∈ members emitter_port) as Hon by (by vm_compute).
  split; [exact Hon|].
  destruct (attach_twice_invokes_twice emitter_port 7 0 1 ∅ Hon)
    as (p1 & p2 & H1 & H2 & H3).
  exists p1, p2. split; [exact H1|]. split; [exact H2|]. exact H3.
Defined.

(** X17.  A value that is not an object (a string, a number, [null],
    [undefined]) delivered on a port makes every listener registered
    through [on] throw a [TypeError] before its handler is called, while
    every listener registered through [addEventListener] passes the value
    to its handler. *)
Theorem dispatch_of_primitive (port : Port) (m : value) :
  (∀ props, m ≠ VObj props) →
  dispatch m port
  = replicate (length (emitter port)) (Throw TypeError)
    ++ ((λ l, Normal (handler l, m)) <$> event_target port).
Proof.
  intros Hm. unfold dispatch. f_equal.
  induction (emitter port) as [|l ls IH]; [done|].
  simpl. rewrite listener_call_primitive by done. f_equal. exact IH.
Qed.

Lemma dispatch_of_primitive_witness :
  (∀ props, VStr "ping" ≠ VObj props)
  ∧ dispatch (VStr "ping")
      {| members := {["on"; "addEventListener"]};
         emitter := [{| fn := 0; handler := 7 |}];
         event_target := [{| fn := 1; handler := 8 |}] |}
    = [Throw TypeError; Normal (8, VStr "ping")].
Proof.
  assert (∀ props, VStr "ping" ≠ VObj props) as Hm by (intros props; discriminate).
  split; [exact Hm|].
  exact (dispatch_of_primitive
           {| members := {["on"; "addEventListener"]};
              emitter := [{| fn := 0; handler := 7 |}];
              event_target := [{| fn := 1; handler := 8 |}] |} (VStr "ping") Hm).
Defined.

(** * The mixin and the callback interface *)

Import Callbacks.

(** X18.  [metadata()] of a read-only file system reports [readonly: true]
    whatever the wrapped file system reports, leaves every other field as
    it is, and is the same when the mixin is applied twice. *)
Theorem readonly_metadata (base : gmap string value) :
  ReadonlyFS.metadata base !! "readonly" = Some (VBool true)
  ∧ ReadonlyFS.metadata (<["readonly" := VBool false]> base) = ReadonlyFS.metadata base
  ∧ ReadonlyFS.metadata (ReadonlyFS.metadata base) = ReadonlyFS.metadata base
  ∧ delete "readonly" (ReadonlyFS.metadata base) = delete "readonly" base.
Proof.
  unfold ReadonlyFS.metadata. split; [by rewrite lookup_insert_eq|].
  split; [by rewrite insert_insert_eq|]. split; [by rewrite insert_insert_eq|].
  by rewrite delete_insert_eq.
Qed.

(** X19.  [rename] asks for one rename and never throws.  Its callback is
    called once with the error when the operation fails and once without
    argument when it succeeds; but a callback that fails on being told of
    the success is called a second time, with its own failure as the
    error.  A failure of the last call is left unhandled. *)
Theorem rename_notifies (oldPath newPath : value) (cb : option Callback)
    (p : settled unit) :
  let c := or_nop cb in
  let e := rename oldPath newPath cb p in
  requested e = [OpRename oldPath newPath]
  ∧ thrown e = None
  ∧ invoked e
    = match p with
      | Failed x => [(cb_name c, [Error x])]
      | Resolved _ =>
          match fails c [] with
          | None => [(cb_name c, [])]
          | Some y => [(cb_name c, []); (cb_name c, [Error y])]
          end
      end
  ∧ unhandled e
    = match p with
      | Failed x => fails c [Error x]
      | Resolved _ =>
          match fails c [] with
          | None => None
          | Some y => fails c [Error y]
          end
      end.
Proof.
  intros c e. subst c e. unfold rename, then_catch. simpl.
  split; [done|]. split; [done|].
  destruct p as [[]|x]; [|done]. by destruct (fails _ _).
Qed.

(** X20.  [exists] only ever hands its callback one boolean: the answer
    when the check succeeds, [false] when it fails, and [false] again,
    in a second call, when the callback failed on the answer. *)
Theorem exists_reports_booleans (path : value) (cb : option Callback)
    (p : settled bool) :
  let c := or_nop cb in
  let e := exists_ path cb p in
  requested e = [OpExists path]
  ∧ thrown e = None
  ∧ Forall (λ i, ∃ b, i = (cb_name c, [Plain (VBool b)])) (invoked e)
  ∧ invoked e
    = match p with
      | Failed _ => [(cb_name c, [Plain (VBool false)])]
      | Resolved b =>
          match fails c [Plain (VBool b)] with
          | None => [(cb_name c, [Plain (VBool b)])]
          | Some _ => [(cb_name c, [Plain (VBool b)]); (cb_name c, [Plain (VBool false)])]
          end
      end.
Proof.
  intros c e. subst c e. unfold exists_, then_catch. simpl.
  split; [done|]. split; [done|].
  destruct p as [b|x]; [destruct (fails _ _)|]; simpl;
    (split; [repeat constructor; by eexists|done]).
Qed.

(** X21.  [truncate] truncates to the length given when the second
    argument is a number, negative or not, and to zero in every other
    case; the callback it calls is the second argument when that is a
    function and the third, or [nop], otherwise. *)
Theorem truncate_length (path : value) (cbLen : arg) (cb : option Callback)
    (p : settled unit) :
  requested (truncate path cbLen cb p)
  = [OpTruncate path (match cbLen with
                      | Given (VNum n) => VNum n
                      | _ => VNum (Int 0)
                      end)]
  ∧ thrown (truncate path cbLen cb p) = None
  ∧ Forall (λ i, i.1 = cb_name (callback_or cbLen (or_nop cb)))
      (invoked (truncate path cbLen cb p)).
Proof.
  unfold truncate, then_catch.
  destruct cbLen as [[| | |n| |]|c]; simpl;
    (split; [done|]; split; [done|]);
    (destruct p as [[]|x]; [destruct (fails _ _)|]; repeat constructor).
Qed.

(** X22.  [ftruncate] with a negative length throws [EINVAL] to its
    caller: the file is not truncated and the callback is not called;
    [truncate] passes the same length on. *)
Theorem ftruncate_negative_throws (fd : value) (z : Z) (cb : option Callback)
    (p : settled unit) :
  (z < 0)%Z →
  ftruncate fd (Given (VNum (Int z))) cb None p
  = {| requested := []; invoked := []; thrown := Some (Invalid None);
       unhandled := None |}
  ∧ requested (truncate fd (Given (VNum (Int z))) cb p)
    = [OpTruncate fd (VNum (Int z))].
Proof.
  intros Hz. split; [|done]. unfold ftruncate. simpl.
  by rewrite bool_decide_eq_true_2.
Qed.

Lemma ftruncate_negative_throws_witness :
  (-1 < 0)%Z
  ∧ ftruncate (VNum (Int 3)) (Given (VNum (Int (-1)))) None None (Resolved ())
    = {| requested := []; invoked := []; thrown := Some (Invalid None);
         unhandled := None |}.
Proof.
  assert (-1 < 0)%Z as Hz by lia.
  split; [exact Hz|].
  exact (proj1 (ftruncate_negative_throws (VNum (Int 3)) (-1) None (Resolved ()) Hz)).
Defined.

(** X23.  [write] with text and a third argument that is neither a
    function nor a number ([undefined], [null], a string): nothing is
    written; the first function among the fourth argument, the fifth and
    the callback is called once with [EINVAL], as a statement.  What
    that call throws leaves through [write]; when it returns a rejected
    promise instead, [write] returns and the rejection is left
    unhandled. *)
Theorem write_text_invalid_arguments (fd : value) (s : string)
    (cbPosOff cbLenEnc cbPos : arg) (cb : option Callback)
    (toString : string → option reason) (p : settled value) :
  typeof_arg cbPosOff ≠ "function" → typeof_arg cbPosOff ≠ "number" →
  let c := callback_or cbLenEnc (callback_or cbPos (or_nop cb)) in
  let e := write fd (Text s) cbPosOff cbLenEnc cbPos cb None toString p in
  requested e = []
  ∧ invoked e = [(cb_name c, [Error (Invalid (Some "Invalid arguments."))])]
  ∧ (thrown e, unhandled e)
    = match call c [Error (Invalid (Some "Invalid arguments."))] with
      | Returns => (None, None)
      | Throws x => (Some x, None)
      | Rejects x => (None, Some x)
      end.
Proof.
  intros Hf Hn c e. subst c e. unfold write.
  destruct cbPosOff as [[| | |n| |]|c]; simpl in *; try done;
    (split; [done|]; split; [done|]); unfold throws, rejects;
    by destruct (call _ _).
Qed.

Lemma write_text_invalid_arguments_witness :
  let c := {| cb_name := 5; call := λ _, Rejects (Raised (Data (VStr "busy"))) |} in
  let e := write (VNum (Int 3)) (Text "data") (Given VNull) (Given (VStr "utf8"))
             (Fn c) None None (λ _, None) (Resolved (VNum (Int 4))) in
  typeof_arg (Given VNull) ≠ "function"
  ∧ typeof_arg (Given VNull) ≠ "number"
  ∧ invoked e = [(5, [Error (Invalid (Some "Invalid arguments."))])]
  ∧ (thrown e, unhandled e) = (None, Some (Raised (Data (VStr "busy")))).
Proof.
  assert (typeof_arg (Given VNull) ≠ "function") as Hf by discriminate.
  assert (typeof_arg (Given VNull) ≠ "number") as Hn by discriminate.
  split; [exact Hf|]. split; [exact Hn|].
  exact (proj2 (write_text_invalid_arguments (VNum (Int 3)) "data" (Given VNull)
                  (Given (VStr "utf8"))
                  (Fn {| cb_name := 5;
                         call := λ _, Rejects (Raised (Data (VStr "busy"))) |})
                  None (λ _, None) (Resolved (VNum (Int 4))) Hf Hn)).
Defined.

(** X24.  [write] with binary data and the callback in third position:
    the callback is passed on as the offset of the write and is never
    called; the result goes to [nop]. *)
Theorem write_binary_callback_third_is_lost (fd : value) (b : list Byte.byte)
    (c : Callback) (toString : string → option reason) (p : settled value) :
  cb_name c ≠ cb_name nop →
  let e := write fd (Binary b) (Fn c) (Given VUndefined) (Given VUndefined) None None
             toString p in
  requested e
  = [OpHandleWrite fd (BufferFrom (Binary b)) (Arg (Fn c)) (Arg (Given VUndefined))
       (Arg (Given VNull))]
  ∧ Forall (λ i, i.1 ≠ cb_name c) (invoked e)
  ∧ Forall (λ i, i.1 = cb_name nop) (invoked e)
  ∧ thrown e = None.
Proof.
  intros Hc e. subst e. unfold write, then_catch. simpl.
  split; [done|]. unfold nop in Hc. simpl in Hc.
  destruct p as [n|x]; simpl;
    (split; [constructor; [simpl; congruence|constructor]|]);
    (split; [by repeat constructor|done]).
Qed.

Lemma write_binary_callback_third_is_lost_witness :
  cb_name {| cb_name := 5; call := λ _, Returns |} ≠ cb_name nop
  ∧ Forall (λ i : invocation, i.1 ≠ 5)
      (invoked (write (VNum (Int 3)) (Binary [])
                  (Fn {| cb_name := 5; call := λ _, Returns |})
                  (Given VUndefined) (Given VUndefined) None None (λ _, None)
                  (Resolved (VNum (Int 0)))))
  ∧ invoked (write (VNum (Int 3)) (Binary []) (Fn {| cb_name := 5; call := λ _, Returns |})
               (Given VUndefined) (Given VUndefined) None None (λ _, None)
               (Resolved (VNum (Int 0))))
    = [(0, [Plain VNull; Plain (VNum (Int 0)); Bytes (BufferFrom (Binary []))])].
Proof.
  assert (cb_name {| cb_name := 5; call := λ _, Returns |} ≠ cb_name nop) as Hc
    by discriminate.
  split; [exact Hc|]. split; [|reflexivity].
  exact (proj1 (proj2 (write_binary_callback_third_is_lost (VNum (Int 3)) []
                         {| cb_name := 5; call := λ _, Returns |} (λ _, None)
                         (Resolved (VNum (Int 0))) Hc))).
Defined.

(** X25.  [openAsBlob] closes the handle exactly when both the opening and
    the reading succeeded, so a failed reading leaves the handle open;
    the promise returned fails with the first failure met and is
    resolved with the buffer read otherwise. *)
Theorem openAsBlob_closes_after_reading (path : value) (opened : settled unit)
    (read : settled buffer) (closed : settled unit) :
  let r := openAsBlob path opened read closed in
  (OpClose ∈ r.1 ↔ ∃ u buffer, opened = Resolved u ∧ read = Resolved buffer)
  ∧ r.2 = match opened, read, closed with
          | Failed e, _, _ => Failed e
          | Resolved _, Failed e, _ => Failed e
          | Resolved _, Resolved _, Failed e => Failed e
          | Resolved _, Resolved buffer, Resolved _ => Resolved buffer
          end.
Proof.
  intros r. subst r. unfold openAsBlob.
  destruct opened as [u|e], read as [buffer|e'], closed as [u'|e'']; simpl;
    (split; [|done]); rewrite list_elem_of_In; simpl; split;
    solve [ intros _; eauto 10
          | intros (? & ? & ? & ?); discriminate
          | intros H; exfalso; intuition discriminate ].
Qed.

(** X26.  [write] with text, a position and an encoding the buffer
    cannot be read in: the text is handed to the file all the same, in
    full and at that position, and when the file has taken it the
    callback is not given the count of bytes written but, once, the
    error [buffer.toString(encoding)] threw. *)
Theorem write_text_undecodable (fd : value) (s : string) (n : number)
    (cbLenEnc cbPos : arg) (cb : option Callback) (toString : string → option reason)
    (x : reason) (bytesWritten : value) :
  toString (encoding_or_utf8 cbLenEnc) = Some x →
  let c := callback_or cbPos (or_nop cb) in
  let e := write fd (Text s) (Given (VNum n)) cbLenEnc cbPos cb None toString
             (Resolved bytesWritten) in
  requested e
  = [OpHandleWrite fd (BufferFrom (Text s)) (Arg (Given (VNum (Int 0))))
       (LengthOf (BufferFrom (Text s))) (Arg (Given (VNum n)))]
  ∧ invoked e = [(cb_name c, [Error x])]
  ∧ thrown e = None
  ∧ unhandled e = fails c [Error x].
Proof.
  intros Hx c e. subst c e. unfold write. simpl. by rewrite Hx.
Qed.

Lemma write_text_undecodable_witness :
  let toString := λ encoding, if String.eqb encoding "utf8" then None
                              else Some (Raised TypeError) in
  let e := write (VNum (Int 3)) (Text "data") (Given (VNum (Int 0)))
             (Given (VStr "klingon")) (Fn {| cb_name := 5; call := λ _, Returns |})
             None None toString (Resolved (VNum (Int 4))) in
  toString (encoding_or_utf8 (Given (VStr "klingon"))) = Some (Raised TypeError)
  ∧ invoked e = [(5, [Error (Raised TypeError)])].
Proof.
  split; [reflexivity|].
  exact (proj1 (proj2 (write_text_undecodable (VNum (Int 3)) "data" (Int 0)
                         (Given (VStr "klingon"))
                         (Fn {| cb_name := 5; call := λ _, Returns |}) None
                         (λ encoding, if String.eqb encoding "utf8" then None
                                      else Some (Raised TypeError))
                         (Raised TypeError) (VNum (Int 4)) eq_refl))).
Defined.
